(** * magic-folder: path codec, ignore predicate, Tahoe-LAFS client and
      snapshot creation

    A shallow embedding of [magic_folder/magicpath.py],
    [magic_folder/tahoe_client.py] and [magic_folder/snapshot.py], with the
    properties the design document states about them. *)

From stdpp Require Import gmap strings list pretty.
From Stdlib Require Import SpecFloat.
From Equations Require Import Equations.

Set Default Proof Using "Type".

(** ** Python values *)

(** A [unicode] object is a sequence of code units; [str] objects (byte
    strings such as capabilities and HTTP bodies) are Rocq strings. *)
Abbreviation ustring := (list N).

(** The unicode literal [u"..."] for ASCII text. *)
Definition u (s : string) : ustring :=
  Ascii.N_of_ascii <$> String.list_ascii_of_string s.

(** Exceptions raised by the embedded code.  [MalformedEncodingError] is
    the error the design document names for the decoder; no statement of
    the source constructs it. *)
Inductive exn :=
| KeyError
| AssertionError
| MalformedEncodingError
| IOError (filename : string)
| ResponseFailed (reason : string)
| TahoeAPIError (code : Z) (body : option string)
| Exception (msg : string)
| NotAFileError
| OutsideFolderError
| IgnoredPathError.

(** The outcome of a call: a returned value or a raised exception. *)
Inductive result (A : Type) :=
| Ok (a : A)
| Raise (e : exn).
Arguments Ok {A} a.
Arguments Raise {A} e.

(** Sequencing: an exception raised by the first call propagates.  With
    these instances [x ← r; k] is stdpp's notation for it. *)
#[global] Instance result_ret : MRet result := λ A a, Ok a.
#[global] Instance result_bind : MBind result := λ A B k r,
  match r with
  | Ok a => k a
  | Raise e => Raise e
  end.

(** [d[k]] on a dict: [KeyError] for a missing key. *)
Definition getitem `{Countable K} {V} (d : gmap K V) (k : K) : result V :=
  match d !! k with
  | Some v => Ok v
  | None => Raise KeyError
  end.

(** ** Regular-expression substitution

    The two patterns of [magicpath] are sequences of character classes of
    positive width: [[/@]] is one class, [@[_@]] is a literal followed by a
    class. *)
Record pattern := Pattern { first_class : list N; more_classes : list (list N) }.

Definition width (pat : pattern) : nat := S (length (more_classes pat)).

Fixpoint match_classes (classes : list (list N)) (s : ustring) : bool :=
  match classes, s with
  | [], _ => true
  | cls :: classes', c :: s' => bool_decide (c ∈ cls) && match_classes classes' s'
  | _ :: _, [] => false
  end.

(** Does [pat] match at the start of [s]? *)
Definition match_here (pat : pattern) (s : ustring) : bool :=
  match_classes (first_class pat :: more_classes pat) s.

(** [re.sub(pat, repl, s)] with a callable [repl]: the scanner walks [s]
    from the left; at a position where [pat] matches it emits
    [repl(m.group(0))] and resumes after the match, elsewhere it copies one
    character.  [skip] counts the characters of the current match still to be
    stepped over. *)
Fixpoint re_sub_from (pat : pattern) (repl : ustring → result ustring)
    (skip : nat) (s : ustring) : result ustring :=
  match s with
  | [] => Ok []
  | c :: rest =>
    match skip with
    | S k => re_sub_from pat repl k rest
    | O =>
      if match_here pat s then
        out ← repl (take (width pat) s);
        tl ← re_sub_from pat repl (pred (width pat)) rest;
        Ok (out ++ tl)
      else
        tl ← re_sub_from pat repl 0 rest;
        Ok (c :: tl)
    end
  end.

Definition re_sub (pat : pattern) (repl : ustring → result ustring)
    (s : ustring) : result ustring :=
  re_sub_from pat repl 0 s.

(** ** String methods and [os.path] *)

(** [s.startswith(prefix)] and [s.endswith(suffix)]. *)
Definition startswith (s prefix : ustring) : bool := bool_decide (prefix `prefix_of` s).
Definition endswith (s suffix : ustring) : bool := bool_decide (suffix `suffix_of` s).

Definition sep : N := 47.

(** [p.rfind(c) + 1]: the index just past the last [c] of [p], 0 when [p]
    has none ([rfind] returns -1 then). *)
Fixpoint rfind_succ (c : N) (p : ustring) : nat :=
  match p with
  | [] => 0
  | x :: p' =>
    match rfind_succ c p' with
    | S i => S (S i)
    | O => if bool_decide (x = c) then 1 else 0
    end
  end.

(** [p.rstrip(c)] for a one-character [c]. *)
Fixpoint rstrip (c : N) (p : ustring) : ustring :=
  match p with
  | [] => []
  | x :: p' =>
    match rstrip c p' with
    | [] => if bool_decide (x = c) then [] else [x]
    | stripped => x :: stripped
    end
  end.

(** [posixpath.split]:
<<
    i = p.rfind('/') + 1
    head, tail = p[:i], p[i:]
    if head and head != '/'*len(head):
        head = head.rstrip('/')
    return head, tail
>> *)
Definition os_path_split (p : ustring) : ustring * ustring :=
  let i := rfind_succ sep p in
  let head := take i p in
  let tail := drop i p in
  let head :=
    if bool_decide (head ≠ []) && bool_decide (head ≠ replicate (length head) sep)
    then rstrip sep head else head in
  (head, tail).

(** ** magicpath.py *)

Module magicpath.

(** [re.sub(u'[/@]', lambda m: {u'/': u'@_', u'@': u'@@'}[m.group(0)], path)] *)
Definition path2magic (path : ustring) : result ustring :=
  re_sub (Pattern (u "/@") [])
    (λ m, getitem ({[ u "/" := u "@_"; u "@" := u "@@" ]} : gmap ustring ustring) m)
    path.

(** [re.sub(u'@[_@]', lambda m: {u'@_': u'/', u'@@': u'@'}[m.group(0)], path)] *)
Definition magic2path (path : ustring) : result ustring :=
  re_sub (Pattern (u "@") [u "_@"])
    (λ m, getitem ({[ u "@_" := u "/"; u "@@" := u "@" ]} : gmap ustring ustring) m)
    path.

Definition IGNORE_SUFFIXES : list ustring := [u ".backup"; u ".tmp"; u ".conflict"].
Definition IGNORE_PREFIXES : list ustring := [u "."].

(** The [for suffix in IGNORE_SUFFIXES] loop with its early [return True];
    [false] when the loop runs to its end. *)
Fixpoint ends_with_any (path_u : ustring) (suffixes : list ustring) : bool :=
  match suffixes with
  | [] => false
  | suffix :: suffixes' =>
    if endswith path_u suffix then true else ends_with_any path_u suffixes'
  end.

(** The [while path_u != u""] loop.  The [_assert] on the lengths guards the
    next iteration, which is what makes the loop terminate. *)
Equations walk_segments (oldpath_u : ustring) : result bool
    by wf (length oldpath_u) lt :=
walk_segments oldpath_u with decide (oldpath_u = []) := {
  | left _ := Ok false
  | right _ with os_path_split oldpath_u := {
    | (path_u, tail_u) with startswith tail_u (u ".") := {
      | true := Ok true
      | false with decide (path_u = oldpath_u) := {
        | left _ := Ok true
        | right _ with decide (length path_u < length oldpath_u) := {
          | left shorter := walk_segments path_u
          | right _ := Raise AssertionError } } } } }.

(** The [precondition] that [path_u] is a [unicode] object is its type
    here. *)
Definition should_ignore_file (path_u : ustring) : result bool :=
  if ends_with_any path_u IGNORE_SUFFIXES then Ok true
  else walk_segments path_u.

End magicpath.

(** ** Numbers and [str]

    A Python number is an integer or a float.  A float is given by its sign,
    mantissa and binary exponent ([S754_finite s m e] is [m * 2^e], negated
    when [s]), or is a zero, an infinity or a NaN. *)
Inductive number :=
| Int (z : Z)
| Float (x : spec_float).

Fixpoint zeros (n : nat) : string :=
  match n with
  | O => ""
  | S n' => "0" +:+ zeros n'
  end.

Fixpoint rstrip_zeros (s : string) : string :=
  match s with
  | EmptyString => EmptyString
  | String c s' =>
    match rstrip_zeros s' with
    | EmptyString => if decide (String c EmptyString = "0") then EmptyString
                     else String c EmptyString
    | stripped => String c stripped
    end
  end.

(** For [0 < n < d]: the [k <= 0] with [10^(k-1) <= n/d < 10^k]. *)
Fixpoint below_one (fuel : nat) (n d : Z) : Z :=
  match fuel with
  | O => 0
  | S fuel' => if (d <=? 10 * n)%Z then 0%Z else (below_one fuel' (10 * n) d - 1)%Z
  end.

(** For [0 < n] and [0 < d]: the [k] with [10^(k-1) <= n/d < 10^k], the
    place of the decimal point before the first significant digit. *)
Definition decimal_point (n d : Z) : Z :=
  if (d <=? n)%Z then Z.of_nat (String.length (pretty (n / d)%Z))
  else below_one (S (Z.to_nat (Z.log2 d))) n d.

Definition round_half_even (num den : Z) : Z :=
  let q := (num / den)%Z in
  let r := (num mod den)%Z in
  if (den <? 2 * r)%Z || ((den =? 2 * r)%Z && Z.odd q) then (q + 1)%Z else q.

(** [_Py_dg_dtoa(x, 2, ndigits, ...)] for [x = n/d > 0]: [x] correctly
    rounded to [ndigits] significant decimal digits, as those digits without
    trailing zeros and the place of the decimal point. *)
Definition dtoa (ndigits : Z) (n d : Z) : string * Z :=
  let decpt := decimal_point n d in
  let q :=
    if (decpt <=? ndigits)%Z then round_half_even (n * 10 ^ (ndigits - decpt)) d
    else round_half_even n (d * 10 ^ (decpt - ndigits)) in
  let '(q, decpt) :=
    if (q =? 10 ^ ndigits)%Z then ((10 ^ (ndigits - 1))%Z, (decpt + 1)%Z) else (q, decpt) in
  (rstrip_zeros (pretty q), decpt).

(** [format_float_short] of CPython 2.7 for the format code [g] with
    [Py_DTSF_ADD_DOT_0]: exponent notation when the decimal point is at or
    before -4 or beyond [precision - 1], plain notation otherwise, with [.0]
    put after a run of digits that has no point. *)
Definition format_float_short (precision : Z) (digits : string) (decpt : Z) : string :=
  let ndigits := Z.of_nat (String.length digits) in
  if (decpt <=? -4)%Z || (precision - 1 <? decpt)%Z then
    let exp := (decpt - 1)%Z in
    match digits with
    | EmptyString => EmptyString
    | String d1 more => String d1 (if decide (more = "") then "" else "." +:+ more)
    end
    +:+ "e" +:+ (if (exp <? 0)%Z then "-" else "+")
    +:+ (if (Z.abs exp <? 10)%Z then "0" else "") +:+ pretty (Z.abs exp)
  else if (decpt <=? 0)%Z then "0." +:+ zeros (Z.to_nat (- decpt)) +:+ digits
  else if (ndigits <=? decpt)%Z then digits +:+ zeros (Z.to_nat (decpt - ndigits)) +:+ ".0"
  else String.substring 0 (Z.to_nat decpt) digits +:+ "."
       +:+ String.substring (Z.to_nat decpt) (Z.to_nat (ndigits - decpt)) digits.

(** [str(x)] of a float: twelve significant digits.  The code is Python 2
    (it tests [isinstance(path_u, unicode)]), where [str] of a float is
    [PyOS_double_to_string(x, 'g', 12, Py_DTSF_ADD_DOT_0, NULL)]. *)
Definition float_str (x : spec_float) : string :=
  match x with
  | S754_nan => "nan"
  | S754_infinity s => if s then "-inf" else "inf"
  | S754_zero s => if s then "-0.0" else "0.0"
  | S754_finite s m e =>
    let '(digits, decpt) :=
      if (0 <=? e)%Z then dtoa 12 (Z.pos m * 2 ^ e) 1
      else dtoa 12 (Z.pos m) (2 ^ (- e)) in
    (if s then "-" else "") +:+ format_float_short 12 digits decpt
  end.

(** [str(x)] of a number: the decimal numeral of an integer, the twelve
    digit rendering of a float. *)
Definition str (x : number) : string :=
  match x with
  | Int z => pretty z
  | Float x => float_str x
  end.

(** ** HTTP: requests, responses and the effects of a call *)

(** A [hyperlink.DecodedURL]: the text it was parsed from, with the path
    segments and query parameters put on it since.  The text of a node's URL
    is taken to be well-formed, and capabilities to be ASCII, so that
    [unicode(nodeurl, 'utf-8')], [DecodedURL.from_text] and
    [cap.decode("ascii")] succeed. *)
Record URL := Url { base : string; path : list string; query : list (string * string) }.

Definition from_text (text : string) : URL := Url text [] [].
Definition child (url : URL) (segment : string) : URL :=
  Url (base url) (path url ++ [segment]) (query url).
Definition add (url : URL) (name value : string) : URL :=
  Url (base url) (path url) (query url ++ [(name, value)]).
Definition replace (url : URL) (new_path : list string)
    (new_query : list (string * string)) : URL :=
  Url (base url) new_path new_query.

(** JSON-able Python data: strings, lists and dicts. *)
#[warnings="-register-all"]
Inductive json :=
| JString (s : string)
| JList (items : list json)
| JDict (fields : gmap string json).

(** What a request carries: raw bytes, or the text [json.dumps] makes of a
    document (the document stands for its text). *)
Inductive payload :=
| Bytes (data : string)
| Dumps (doc : json).

Record request := Request { method : string; target : URL; data : option payload }.

(** A response: its status, and its body as the chunks in which it arrives;
    [failure] is set, with the reason, when the connection breaks after those
    chunks. *)
Record response := Response { code : Z; chunks : list string; failure : option string }.

(** An HTTP client ([treq.client.HTTPClient] or a test double): the response
    it obtains for a request, given the requests made before.  Every request
    obtains a response: a connection that cannot be made is not modelled, one
    that breaks while the body arrives is ([failure]). *)
Record HTTPClient := { respond : list request → request → response }.

(** The state a call can touch: the requests issued so far (oldest first),
    what has been written to each file-like object, the files on disk, and
    the clock. *)
Record world := World {
  sent : list request;
  written : gmap nat (list string);
  files : gmap string string;
  clock : spec_float;
}.

(** An effectful call ([inlineCallbacks] generator run to its end): from a
    world to an outcome and the world it leaves. *)
Definition M (A : Type) : Type := world → result A * world.

#[global] Instance M_ret : MRet M := λ A a w, (Ok a, w).
#[global] Instance M_bind : MBind M := λ A B k m w,
  match m w with
  | (Ok a, w') => k a w'
  | (Raise e, w') => (Raise e, w')
  end.

Definition raise {A} (e : exn) : M A := λ w, (Raise e, w).
Definition lift {A} (r : result A) : M A := λ w, (r, w).

(** [http_client.request(method, url, data=...)]. *)
Definition http_request (client : HTTPClient) (req : request) : M response :=
  λ w, (Ok (respond client (sent w) req),
        World (sent w ++ [req]) (written w) (files w) (clock w)).

(** [readBody(response)], which treq offers as [res.content()]: the whole
    body, once it has arrived. *)
Definition readBody (res : response) : M string :=
  lift (match failure res with
        | None => Ok (String.concat "" (chunks res))
        | Some reason => Raise (ResponseFailed reason)
        end).

(** [filelike.write(chunk)]. *)
Definition write (filelike : nat) (chunk : string) : M unit :=
  λ w, (Ok (),
        World (sent w) (<[filelike := default [] (written w !! filelike) ++ [chunk]]> (written w))
              (files w) (clock w)).

(** [res.collect(f)]: [f] is called with each chunk as it arrives. *)
Fixpoint collect_chunks (cs : list string) (f : string → M unit) : M unit :=
  match cs with
  | [] => mret ()
  | c :: cs' => _ ← f c; collect_chunks cs' f
  end.

Definition collect (res : response) (f : string → M unit) : M unit :=
  _ ← collect_chunks (chunks res) f;
  match failure res with
  | None => mret ()
  | Some reason => raise (ResponseFailed reason)
  end.

(** [open(filename, "rb").read()]. *)
Definition read_file (filename : string) : M string :=
  λ w, (match files w !! filename with
        | Some bytes => Ok bytes
        | None => Raise (IOError filename)
        end, w).

(** [time.time()]: the reading of the clock, a float. *)
Definition time_time : M spec_float := λ w, (Ok (clock w), w).

(** [s.strip()] on a byte string. *)
Fixpoint lstrip (s : string) : string :=
  match s with
  | EmptyString => EmptyString
  | String c s' => if Ascii.is_space c then lstrip s' else s
  end.

Fixpoint rstrip_space (s : string) : string :=
  match s with
  | EmptyString => EmptyString
  | String c s' =>
    match rstrip_space s' with
    | EmptyString => if Ascii.is_space c then EmptyString else String c EmptyString
    | stripped => String c stripped
    end
  end.

Definition strip (s : string) : string := rstrip_space (lstrip s).

(** [twisted.web.http] status codes. *)
Definition OK : Z := 200.
Definition CREATED : Z := 201.

(** ** tahoe_client.py *)

Module tahoe_client.

Definition _request (http_client : HTTPClient) (method : string) (url : URL)
    (data : option payload) : M response :=
  http_request http_client (Request method url data).

Definition _get_content_check_code (acceptable_codes : gset Z) (res : response) : M string :=
  body ← readBody res;
  if bool_decide (code res ∉ acceptable_codes)
  then raise (TahoeAPIError (code res) (Some body))
  else mret body.

Record TahoeClient := { url : URL; http_client : HTTPClient }.

Definition create_immutable_directory (self : TahoeClient) (directory_data : json) : M string :=
  let post_uri := replace (url self) ["uri"] [("t", "mkdir-immutable")] in
  res ← _request (http_client self) "POST" post_uri (Some (Dumps directory_data));
  capability_string ← _get_content_check_code {[OK; CREATED]} res;
  mret (strip capability_string).

Definition create_immutable (self : TahoeClient) (producer : payload) : M string :=
  let put_uri := child (url self) "uri" in
  res ← _request (http_client self) "PUT" put_uri (Some producer);
  capability_string ← _get_content_check_code {[CREATED]} res;
  mret (strip capability_string).

Definition create_mutable_directory (self : TahoeClient) : M string :=
  let post_uri := replace (url self) ["uri"] [("t", "mkdir")] in
  response ← _request (http_client self) "POST" post_uri None;
  capability_string ← _get_content_check_code {[OK; CREATED]} response;
  mret capability_string.

Definition download_capability (self : TahoeClient) (cap : string) : M string :=
  let get_uri := replace (url self) ["uri"] [("uri", cap)] in
  res ← _request (http_client self) "GET" get_uri None;
  data ← _get_content_check_code {[OK]} res;
  mret data.

Definition stream_capability (self : TahoeClient) (cap : string) (filelike : nat) : M unit :=
  let get_uri := replace (url self) ["uri"] [("uri", cap)] in
  res ← http_request (http_client self) (Request "GET" get_uri None);
  if bool_decide (code res ≠ OK)
  then raise (TahoeAPIError (code res) None)
  else collect res (write filelike).

Definition create_tahoe_client (url : URL) (http_client : HTTPClient) : TahoeClient :=
  {| url := url; http_client := http_client |}.

End tahoe_client.

(** ** snapshot.py *)

Module snapshot.

(** version of the snapshot scheme *)
Definition SNAPSHOT_VERSION : number := Int 1.

Section with_common.

(** [get_node_url] and [bad_response] are imported from
    [magic_folder.common], a module that is not embedded here: the
    functions below take them as given. *)
Variable get_node_url : string → string.
Variable bad_response : URL → response → M string.

(** The texts that go into the message of an error: hyperlink's
    [url.to_uri().to_text()] and treq's rendering of a response object. *)
Variable to_text : URL → string.
Variable repr_response : response → string.

(** [HTTPClient(Agent(reactor))]: the client on the process's reactor. *)
Variable reactor_client : HTTPClient.

Definition tahoe_put_immutable (nodeurl filepath : string) (treq : HTTPClient) : M string :=
  let node_url := from_text nodeurl in
  let url := add (child node_url "uri") "format" "CHK" in
  let put_uri := url in
  data ← read_file filepath;
  response ← http_request treq (Request "PUT" put_uri (Some (Bytes data)));
  if bool_decide (code response = OK) || bool_decide (code response = CREATED)
  then
    result ← readBody response;
    mret result
  else
    raise (Exception ("Error response PUT " +:+ to_text put_uri +:+ " - "
                      +:+ repr_response response)).

Definition tahoe_create_snapshot_dir (nodeurl content : string) (parents : list string)
    (timestamp : number) (treq : HTTPClient) : M string :=
  (* dict that would be serialized to JSON *)
  let body : gmap string json :=
    {[ "content" := JList [JString "filenode";
                           JDict {[ "ro_uri" := JString content;
                                    "metadata" := JDict ∅ ]}];
       "version" := JList [JString "filenode";
                           JDict {[ "ro_uri" := JString (str SNAPSHOT_VERSION);
                                    "metadata" := JDict ∅ ]}];
       "timestamp" := JList [JString "filenode";
                             JDict {[ "ro_uri" := JString (str timestamp);
                                      "metadata" := JDict ∅ ]}] ]} in
  let body :=
    if bool_decide (parents ≠ [])
    then <["parents" := JList (JString <$> parents)]> body
    else body in
  let body_json := Dumps (JDict body) in
  let node_url := from_text nodeurl in
  (* POST /uri?t=mkdir-immutable *)
  let url := add (child node_url "uri") "t" "mkdir-immutable" in
  let post_uri := url in
  response ← http_request treq (Request "POST" post_uri (Some body_json));
  if bool_decide (code response ≠ OK)
  then bad_response url response
  else
    result ← readBody response;
    mret result.

Definition _store_file_immutable (nodeurl filepath : string) : M string :=
  let treq := reactor_client in
  rocap ← tahoe_put_immutable nodeurl filepath treq;
  mret rocap.

Definition snapshot_create (node_directory filepath : string) (parents : list string) : M string :=
  let nodeurl := get_node_url node_directory in
  (* store the file content and get the immutable cap (content) *)
  content_cap ← _store_file_immutable nodeurl filepath;
  now ← time_time;
  (* HTTP POST mkdir-immutable *)
  let treq := reactor_client in
  snapshot_cap ← tahoe_create_snapshot_dir nodeurl content_cap parents (Float now) treq;
  mret snapshot_cap.

End with_common.

End snapshot.

(** ** Local capture *)

Module local_capture.

Import magicpath.

(** Modelled from the spec: the [LocalSnapshot] entity of the data model.
    Its class and the capture service ([LocalSnapshotService],
    [LocalSnapshotCreator]) are defined in modules that are not embedded
    here; [test_local_snapshot.py] exercises them.  [content_path] names the
    staged copy by its slot in the stash. *)
#[warnings="-register-all"]
Inductive LocalSnapshot := mkLocalSnapshot {
  identifier : N;
  name : ustring;
  author : string;
  metadata : list (string * string);
  content_path : N;
  parents_local : list LocalSnapshot;
  parents_remote : list string;
}.

Inductive node :=
| RegularFile (bytes : string)
| Directory.

(** Modelled from the spec: what the capture service of one managed folder
    works on: the folder's root and author, the filesystem, the stash of
    staged content, the Local Index (encoded path to current local snapshot),
    the known remote ancestry of each encoded path, and the next fresh
    identifier. *)
Record folder := Folder {
  root : ustring;
  folder_author : string;
  disk : gmap ustring node;
  stash : gmap N string;
  index : gmap ustring LocalSnapshot;
  remote_ancestry : gmap ustring (list string);
  next_identifier : N;
}.

(** The path of [target] relative to [root], when [target] lies under it. *)
Definition relative_to (root target : ustring) : option ustring :=
  if bool_decide ((root ++ [sep]) `prefix_of` target)
  then Some (drop (S (length root)) target)
  else None.

(** Modelled from the spec: [submit(path)] of the Local Capture Service.
    The preconditions are checked first (existing regular file, under the
    folder's root, not ignored); an accepted path has its content staged, its
    previous local snapshot looked up in the Local Index as the sole local
    parent, and the new snapshot, under a fresh identifier, stored in the
    index in place of the previous record. *)
Definition submit (target : ustring) (st : folder) : result LocalSnapshot * folder :=
  match disk st !! target with
  | Some (RegularFile bytes) =>
    match relative_to (root st) target with
    | None => (Raise OutsideFolderError, st)
    | Some relpath =>
      match should_ignore_file relpath with
      | Raise e => (Raise e, st)
      | Ok true => (Raise IgnoredPathError, st)
      | Ok false =>
        match path2magic relpath with
        | Raise e => (Raise e, st)
        | Ok encoded =>
          let fresh := next_identifier st in
          let snap :=
            {| identifier := fresh;
               name := relpath;
               author := folder_author st;
               metadata := [];
               content_path := fresh;
               parents_local := option_list (index st !! encoded);
               parents_remote := default [] (remote_ancestry st !! encoded) |} in
          (Ok snap,
           Folder (root st) (folder_author st) (disk st)
                  (<[fresh := bytes]> (stash st))
                  (<[encoded := snap]> (index st))
                  (remote_ancestry st)
                  (N.succ fresh))
        end
      end
    end
  | _ => (Raise NotAFileError, st)
  end.

(** An edit: the file at [target] now holds [bytes]. *)
Definition write_file (target : ustring) (bytes : string) (st : folder) : folder :=
  Folder (root st) (folder_author st) (<[target := RegularFile bytes]> (disk st))
         (stash st) (index st) (remote_ancestry st) (next_identifier st).

(** Edits to [target] submitted one after the other, in the order given:
    the outcome of each submission, and the state they leave. *)
Fixpoint submit_edits (target : ustring) (contents : list string) (st : folder)
    : list (result LocalSnapshot) * folder :=
  match contents with
  | [] => ([], st)
  | bytes :: contents' =>
    let '(outcome, st1) := submit target (write_file target bytes st) in
    let '(outcomes, st2) := submit_edits target contents' st1 in
    (outcome :: outcomes, st2)
  end.

(** The number of snapshots on the chain that ends in [s]: [s], its sole
    local parent, that one's sole local parent, and so on. *)
Fixpoint chain_length (s : LocalSnapshot) : nat :=
  match parents_local s with
  | [parent] => S (chain_length parent)
  | _ => 1
  end.

End local_capture.

(** ** Vocabulary of the design document *)

(** The segments of a path: [path.split(u"/")]. *)
Fixpoint segments (p : ustring) : list ustring :=
  match p with
  | [] => [[]]
  | c :: p' =>
    if bool_decide (c = sep) then [] :: segments p'
    else match segments p' with
         | seg :: segs => (c :: seg) :: segs
         | [] => [[c]]
         end
  end.

(** The leaf segment of a path: its last segment. *)
Definition leaf (p : ustring) : ustring := default [] (list.last (segments p)).

(** A dot opens a segment of [p]: it opens [p] or follows a separator. *)
Definition dot_opens_segment (p : ustring) : Prop :=
  (∃ r, p = 46%N :: r) ∨ (∃ a b, p = a ++ sep :: 46%N :: b).

(** A flat name has a malformed escape when the decoder's scan meets an
    escape-prefix character ([@]) that is not followed by [_] or [@]. *)
Fixpoint malformed (name : ustring) : bool :=
  match name with
  | [] => false
  | c :: rest =>
    if bool_decide (c = 64%N) then
      match rest with
      | d :: rest' =>
        if bool_decide (d = 95%N) || bool_decide (d = 64%N)
        then malformed rest' else true
      | [] => true
      end
    else malformed rest
  end.

(** What the decoder's scan yields: [@_] becomes [/], [@@] becomes [@], and
    every other character, a lone [@] included, is kept. *)
Fixpoint unescape (name : ustring) : ustring :=
  match name with
  | [] => []
  | c :: rest =>
    if bool_decide (c = 64%N) then
      match rest with
      | d :: rest' =>
        if bool_decide (d = 95%N) then 47%N :: unescape rest'
        else if bool_decide (d = 64%N) then 64%N :: unescape rest'
        else c :: unescape rest
      | [] => [c]
      end
    else c :: unescape rest
  end.

(** The encoding of one character. *)
Definition escape (c : N) : ustring :=
  if bool_decide (c = 47%N) then u "@_"
  else if bool_decide (c = 64%N) then u "@@"
  else [c].

(** The whole body of a response. *)
Definition body_of (res : response) : string := String.concat "" (chunks res).

(** The world after [req] has been issued. *)
Definition after_request (w : world) (req : request) : world :=
  World (sent w ++ [req]) (written w) (files w) (clock w).

(** ** Test doubles and sample states *)

(** A client that obtains the same response for every request. *)
Definition always (res : response) : HTTPClient := {| respond := λ _ _, res |}.

(** A client for which every request is answered with status [c] and body
    [body] followed by a line feed, as a Tahoe-LAFS node ends its answers. *)
Definition answering (c : Z) (body : string) : HTTPClient :=
  always (Response c [body; String (Ascii.ascii_of_nat 10) EmptyString] None).

(** A node that stores what is put ([201]) and makes the directories asked
    for ([200]). *)
Definition sample_node : HTTPClient :=
  {| respond := λ _ req,
       if decide (method req = "PUT")
       then Response CREATED ["URI:CHK:aaaa"] None
       else Response OK ["URI:DIR2-CHK:bbbb"] None |}.

(** The float 1588000000.5. *)
Definition sample_time : spec_float := S754_finite false 3176000001 (-1).

(** A world in which nothing has been sent or written, [/tmp/foo] holds
    [foo] and the clock reads 1588000000.5. *)
Definition fresh_world : world := World [] ∅ {[ "/tmp/foo" := "foo" ]} sample_time.

(** A managed folder at [/home/alice/magic] in which nothing has been
    captured yet. *)
Definition fresh_folder : local_capture.folder :=
  local_capture.Folder (u "/home/alice/magic") "alice" ∅ ∅ ∅ ∅ 0.

(** [snaps] is a chain that continues from [prev]: the first snapshot has
    [prev] (when there is one) as its only local parent, and each later one
    has the snapshot before it. *)
Fixpoint chained (prev : option local_capture.LocalSnapshot)
    (snaps : list local_capture.LocalSnapshot) : Prop :=
  match snaps with
  | [] => True
  | snap :: snaps' =>
    local_capture.parents_local snap = option_list prev ∧ chained (Some snap) snaps'
  end.

(** The descriptor of a directory entry that holds [cap]:
    [["filenode", {"ro_uri": cap, "metadata": {}}]]. *)
Definition filenode (cap : string) : json :=
  JList [JString "filenode"; JDict {[ "ro_uri" := JString cap; "metadata" := JDict ∅ ]}].

(** A byte string of white space only. *)
Fixpoint blank (s : string) : bool :=
  match s with
  | EmptyString => true
  | String c s' => Ascii.is_space c && blank s'
  end.

(** The field set [tahoe_create_snapshot_dir] builds for a snapshot. *)
Definition directory_of (content : string) (parents : list string) (timestamp : number)
    : gmap string json :=
  let fields : gmap string json :=
    {[ "content" := filenode content;
       "version" := filenode "1";
       "timestamp" := filenode (str timestamp) ]} in
  if decide (parents = []) then fields
  else <["parents" := JList (JString <$> parents)]> fields.

(** ** test/strategies.py: how the tests build paths *)

(** [posixpath.join(a, *p)]:
<<
    path = a
    for b in p:
        if b.startswith('/'):
            path = b
        elif path == '' or path.endswith('/'):
            path +=  b
        else:
            path += '/' + b
    return path
>> *)
Fixpoint os_path_join (a : ustring) (p : list ustring) : ustring :=
  match p with
  | [] => a
  | b :: p' =>
    os_path_join
      (if startswith b (u "/") then b
       else if bool_decide (a = []) || endswith a (u "/") then a ++ b
       else a ++ sep :: b)
      p'
  end.

Module strategies.

(** What [relative_paths] maps a list of segments to: [join] applied to the
    segments as its arguments.  The strategy draws at least one segment;
    [join] of none is a [TypeError]. *)
Definition relative_path (xs : list ustring) : option ustring :=
  match xs with
  | a :: p => Some (os_path_join a p)
  | [] => None
  end.

(** What [path_segments] guarantees of a segment for the purposes below: it
    is drawn with [min_size=1] from an alphabet without [/]. *)
Definition path_segment (s : ustring) : Prop := s ≠ [] ∧ sep ∉ s.

End strategies.

(** * Properties *)

Import stdpp.tactics.
Arguments os_path_split : simpl never.

(** ** Path codec *)

Section codec.

Import magicpath.

Example path2magic_sample : path2magic (u "dir/a@b.txt") = Ok (u "dir@_a@@b.txt").
Proof. reflexivity. Qed.

Example magic2path_sample : magic2path (u "dir@_a@@b.txt") = Ok (u "dir/a@b.txt").
Proof. reflexivity. Qed.

Lemma path2magic_unfold (c : N) (p : ustring) :
  path2magic (c :: p) = (tl ← path2magic p; Ok (escape c ++ tl)).
Proof.
  unfold path2magic, re_sub, escape. cbn [re_sub_from].
  destruct (decide (c = 47%N)) as [->|Hslash]; [reflexivity|].
  destruct (decide (c = 64%N)) as [->|Hat]; [reflexivity|].
  rewrite !bool_decide_eq_false_2 by done.
  replace (match_here _ _) with false; [reflexivity|].
  symmetry. unfold match_here. cbn. rewrite andb_true_r.
  apply bool_decide_eq_false_2. rewrite !elem_of_cons, elem_of_nil. intros [?|[?|[]]]; lia.
Qed.

(** Encoding never raises: it is the concatenation of the characters'
    encodings. *)
Lemma path2magic_escape (p : ustring) : path2magic p = Ok (p ≫= escape).
Proof.
  induction p as [|c p IH]; [reflexivity|].
  rewrite path2magic_unfold, IH. reflexivity.
Qed.

Lemma magic2path_unescape_bounded (n : nat) (p : ustring) :
  length p ≤ n → magic2path p = Ok (unescape p).
Proof.
  revert p. induction n as [|n IH]; intros [|c rest] Hlen; try reflexivity.
  { cbn in Hlen. lia. }
  assert (Hrest : magic2path rest = Ok (unescape rest)) by (apply IH; cbn in Hlen; lia).
  unfold magic2path, re_sub in *. cbn [re_sub_from unescape].
  destruct (decide (c = 64%N)) as [->|Hat].
  - destruct rest as [|d rest']; [reflexivity|].
    assert (Hrest' : magic2path rest' = Ok (unescape rest'))
      by (apply IH; cbn in Hlen; lia).
    unfold magic2path, re_sub in Hrest'.
    destruct (decide (d = 95%N)) as [->|Hus].
    { cbn. cbn in Hrest'. rewrite Hrest'. reflexivity. }
    destruct (decide (d = 64%N)) as [->|Hat'].
    { cbn. cbn in Hrest'. rewrite Hrest'. reflexivity. }
    rewrite !bool_decide_eq_true_2 by done.
    rewrite !bool_decide_eq_false_2 by done.
    replace (match_here _ _) with false.
    + rewrite Hrest. reflexivity.
    + symmetry. unfold match_here. cbn. rewrite andb_true_r.
      apply bool_decide_eq_false_2. rewrite !elem_of_cons, elem_of_nil. intros [?|[?|[]]]; lia.
  - rewrite bool_decide_eq_false_2 by done.
    replace (match_here _ _) with false.
    + rewrite Hrest. reflexivity.
    + symmetry. unfold match_here. cbn.
      rewrite bool_decide_eq_false_2; [done|].
      rewrite !elem_of_cons, elem_of_nil. intros [?|[]]; lia.
Qed.

(** Decoding never raises: it is the scan [unescape]. *)
Lemma magic2path_unescape (p : ustring) : magic2path p = Ok (unescape p).
Proof. by apply (magic2path_unescape_bounded (length p)). Qed.

Lemma unescape_escape (c : N) (m : ustring) : unescape (escape c ++ m) = c :: unescape m.
Proof.
  unfold escape.
  destruct (decide (c = 47%N)) as [->|Hslash]; [reflexivity|].
  destruct (decide (c = 64%N)) as [->|Hat]; [reflexivity|].
  rewrite !bool_decide_eq_false_2 by done. cbn.
  by rewrite bool_decide_eq_false_2.
Qed.

Lemma unescape_encoding (p m : ustring) : unescape ((p ≫= escape) ++ m) = p ++ unescape m.
Proof.
  induction p as [|c p IH]; [reflexivity|].
  cbn [mbind list_bind]. rewrite <-(assoc_L (++)), unescape_escape, IH. reflexivity.
Qed.

Lemma decode_encode (p : ustring) : (m ← path2magic p; magic2path m) = Ok p.
Proof.
  rewrite path2magic_escape. cbn.
  rewrite magic2path_unescape.
  pose proof (unescape_encoding p []) as H. cbn [unescape] in H.
  rewrite !(right_id_L [] (++)) in H. by rewrite H.
Qed.

(** C1: decoding the encoding of a path returns the path.  For every unicode
    string [p], [path2magic p] returns a flat name, and [magic2path] of that
    name returns [p]: [magic2path(path2magic(p)) == p]. *)
Theorem magic2path_path2magic (p : ustring) :
  ∃ m, path2magic p = Ok m ∧ magic2path m = Ok p.
Proof.
  exists (p ≫= escape). split; [apply path2magic_escape|].
  pose proof (decode_encode p) as H. by rewrite path2magic_escape in H.
Qed.

(** C2: the encoding is injective.  Two distinct paths never have the same
    encoding. *)
Theorem path2magic_injective (p1 p2 : ustring) :
  p1 ≠ p2 → path2magic p1 ≠ path2magic p2.
Proof.
  intros Hne Heq. apply Hne.
  pose proof (decode_encode p1) as H1. pose proof (decode_encode p2) as H2.
  rewrite Heq, H2 in H1. congruence.
Qed.

Lemma path2magic_injective_witness :
  u "a/b" ≠ u "a@_b" ∧ path2magic (u "a/b") ≠ path2magic (u "a@_b").
Proof.
  assert (Hne : u "a/b" ≠ u "a@_b") by (vm_compute; discriminate).
  split; [exact Hne | exact (path2magic_injective _ _ Hne)].
Defined.

(** C5, as stated: a flat name with an escape character that is followed by
    neither [_] nor [@] makes [magic2path] raise [MalformedEncodingError].
    It does not: [u"a@b"] has such a character and is returned as it is. *)
Lemma magic2path_lone_escape_returned :
  malformed (u "a@b") = true ∧
  magic2path (u "a@b") = Ok (u "a@b") ∧
  magic2path (u "a@b") ≠ Raise MalformedEncodingError.
Proof. by vm_compute. Qed.

Lemma unescape_lone_escape (rest : ustring) :
  (∀ d rest', rest = d :: rest' → d ≠ 95%N ∧ d ≠ 64%N) →
  unescape (64%N :: rest) = 64%N :: unescape rest.
Proof.
  intros Hnext. destruct rest as [|d rest']; [done|].
  destruct (Hnext d rest' eq_refl) as [Hus Hat].
  cbn [unescape]. rewrite bool_decide_eq_true_2 by done.
  by rewrite !bool_decide_eq_false_2 by done.
Qed.

(** C5, amended: decoding never raises.  [magic2path] returns a string for
    every flat name, and an [@] that is not followed by [_] or [@] is copied
    to the output: after the encoding of a path [p], such an [@] decodes to
    itself, and the decoding goes on with what follows it. *)
Theorem magic2path_passes_lone_escape :
  (∀ name, ∃ q, magic2path name = Ok q) ∧
  (∀ p rest,
     (∀ d rest', rest = d :: rest' → d ≠ 95%N ∧ d ≠ 64%N) →
     ∃ m q, path2magic p = Ok m ∧ magic2path rest = Ok q ∧
            magic2path (m ++ 64%N :: rest) = Ok (p ++ 64%N :: q)).
Proof.
  split; [by intros name; rewrite magic2path_unescape; eexists|].
  intros p rest Hnext. exists (p ≫= escape), (unescape rest).
  rewrite path2magic_escape, !magic2path_unescape.
  by rewrite unescape_encoding, unescape_lone_escape.
Qed.

Lemma magic2path_passes_lone_escape_witness :
  ∃ m q, path2magic (u "a/b") = Ok m ∧ magic2path (u "c") = Ok q ∧
         magic2path (m ++ 64%N :: u "c") = Ok (u "a/b" ++ 64%N :: q).
Proof.
  apply (proj2 magic2path_passes_lone_escape (u "a/b") (u "c")).
  intros d rest' [= <- <-]. by vm_compute.
Defined.

End codec.

(** ** The ignore predicate *)

Section ignore.

Import magicpath.
#[local] Arguments u : simpl never.

Example os_path_split_samples :
  os_path_split (u "a/b//c") = (u "a/b", u "c") ∧
  os_path_split (u "a/b//") = (u "a/b", u "") ∧
  os_path_split (u "//a") = (u "//", u "a") ∧
  os_path_split (u "/") = (u "/", u "") ∧
  os_path_split (u "a") = (u "", u "a").
Proof. by vm_compute. Qed.

Example should_ignore_file_samples :
  should_ignore_file (u "docs/notes.txt") = Ok false ∧
  should_ignore_file (u "") = Ok false ∧
  should_ignore_file (u "docs/notes.txt.conflict") = Ok true ∧
  should_ignore_file (u "docs/.cache/notes.txt") = Ok true ∧
  should_ignore_file (u "/docs/notes.txt") = Ok true ∧
  should_ignore_file (u "docs/notes.tmp/readme") = Ok false.
Proof. by vm_compute. Qed.

(** *** [rfind], [rstrip] and [os.path.split] *)

Lemma rfind_succ_notin (c : N) (p : ustring) : c ∉ p → rfind_succ c p = 0.
Proof.
  induction p as [|x p IH]; [done|].
  intros [Hx Hp]%not_elem_of_cons. cbn.
  rewrite IH by done. by rewrite bool_decide_eq_false_2.
Qed.

Lemma rfind_succ_last (c : N) (a t : ustring) :
  c ∉ t → rfind_succ c (a ++ c :: t) = S (length a).
Proof.
  intros Ht. induction a as [|x a IH]; cbn.
  - rewrite rfind_succ_notin by done. by rewrite bool_decide_eq_true_2.
  - by rewrite IH.
Qed.

Lemma last_occurrence (c : N) (p : ustring) :
  c ∈ p → ∃ a t, p = a ++ c :: t ∧ c ∉ t.
Proof.
  induction p as [|x p IH]; intros Hin; [by apply elem_of_nil in Hin|].
  destruct (decide (c ∈ p)) as [Hp|Hp].
  - destruct (IH Hp) as (a & t & -> & Ht). by exists (x :: a), t.
  - apply elem_of_cons in Hin as [->|?]; [|done]. by exists [], p.
Qed.

Lemma rstrip_cons_keep (c x : N) (p : ustring) :
  rstrip c p ≠ [] → rstrip c (x :: p) = x :: rstrip c p.
Proof. cbn. by destruct (rstrip c p). Qed.

Lemma rstrip_cons_ne (c x : N) (p : ustring) :
  x ≠ c → rstrip c (x :: p) = x :: rstrip c p.
Proof.
  intros Hx. cbn. destruct (rstrip c p); [|done].
  by rewrite bool_decide_eq_false_2.
Qed.

Lemma rstrip_snoc (c : N) (a : ustring) : rstrip c (a ++ [c]) = rstrip c a.
Proof.
  induction a as [|x a IH]; cbn.
  - by rewrite bool_decide_eq_true_2.
  - by rewrite IH.
Qed.

Lemma rstrip_middle (c y : N) (x z : ustring) :
  y ≠ c → rstrip c (x ++ y :: z) = x ++ y :: rstrip c z.
Proof.
  intros Hy. induction x as [|x0 x IH]; cbn [app].
  - by apply rstrip_cons_ne.
  - rewrite rstrip_cons_keep; rewrite IH; [done|]. by destruct x.
Qed.

Lemma rstrip_prefix (c : N) (p : ustring) : rstrip c p `prefix_of` p.
Proof.
  induction p as [|x p IH]; cbn; [done|].
  destruct (rstrip c p) as [|y stripped].
  - case_bool_decide; [apply prefix_nil|]. apply prefix_cons, prefix_nil.
  - by apply prefix_cons.
Qed.

Lemma rstrip_nil (c : N) (p : ustring) :
  rstrip c p = [] → p = replicate (length p) c.
Proof.
  induction p as [|x p IH]; cbn; [done|].
  destruct (rstrip c p); [|done].
  case_bool_decide; [|done]. intros _. subst. f_equal. by apply IH.
Qed.

Lemma os_path_split_nosep (p : ustring) : sep ∉ p → os_path_split p = ([], p).
Proof.
  intros Hp. unfold os_path_split. by rewrite rfind_succ_notin.
Qed.

Lemma os_path_split_last (a t : ustring) :
  sep ∉ t →
  os_path_split (a ++ sep :: t) =
  (if decide (a ++ [sep] = replicate (S (length a)) sep)
   then a ++ [sep] else rstrip sep a, t).
Proof.
  intros Ht. unfold os_path_split. rewrite rfind_succ_last by done.
  rewrite (cons_middle sep a t), (assoc_L (++)).
  assert (Hlen : length (a ++ [sep]) = S (length a))
    by (rewrite length_app; cbn; lia).
  rewrite <-Hlen, take_app_length, drop_app_length. f_equal.
  rewrite bool_decide_eq_true_2 by (by destruct a).
  cbn [andb]. rewrite Hlen. case_bool_decide; case_decide; try done.
  apply rstrip_snoc.
Qed.

Lemma os_path_split_prefix (p : ustring) : (os_path_split p).1 `prefix_of` p.
Proof.
  destruct (decide (sep ∈ p)) as [Hin|Hnot].
  - destruct (last_occurrence _ _ Hin) as (a & t & -> & Ht).
    rewrite os_path_split_last by done. cbn. case_decide.
    + rewrite (cons_middle sep a t), (assoc_L (++)). by apply prefix_app_r.
    + etrans; [apply rstrip_prefix|]. by apply prefix_app_r.
  - rewrite os_path_split_nosep by done. apply prefix_nil.
Qed.

(** The [_assert] of the loop holds whenever it is reached. *)
Lemma os_path_split_shorter (p : ustring) :
  (os_path_split p).1 ≠ p → length (os_path_split p).1 < length p.
Proof.
  intros Hne. pose proof (os_path_split_prefix p) as Hpre.
  pose proof (prefix_length _ _ Hpre) as Hle.
  destruct (decide (length (os_path_split p).1 = length p)) as [Heq|]; [|lia].
  destruct Hne. apply (prefix_length_eq _ _ Hpre). lia.
Qed.

(** One turn of the [while] loop. *)
Lemma walk_segments_step (p : ustring) :
  walk_segments p =
  if decide (p = []) then Ok false else
  if startswith (os_path_split p).2 (u ".") then Ok true
  else if decide ((os_path_split p).1 = p) then Ok true
  else if decide (length (os_path_split p).1 < length p)
       then walk_segments (os_path_split p).1
  else Raise AssertionError.
Proof.
  rewrite walk_segments_equation_1.
  destruct (decide (p = [])); cbn; [done|].
  destruct (os_path_split p) as [h t]; cbn.
  destruct (startswith t (u ".")); cbn; [done|].
  destruct (decide (h = p)); cbn; [done|].
  destruct (decide (length h < length p)); cbn; done.
Qed.


(** The loop without its assertion, which never fails. *)
Lemma walk_segments_loop (p : ustring) :
  walk_segments p =
  if decide (p = []) then Ok false else
  if startswith (os_path_split p).2 (u ".") then Ok true
  else if decide ((os_path_split p).1 = p) then Ok true
  else walk_segments (os_path_split p).1.
Proof.
  rewrite walk_segments_step at 1.
  repeat case_match; try done.
  exfalso. eauto using os_path_split_shorter.
Qed.

Lemma walk_segments_total_bounded (n : nat) (p : ustring) :
  length p < n → ∃ b, walk_segments p = Ok b.
Proof.
  revert p. induction n as [|n IH]; intros p Hlen; [lia|].
  rewrite walk_segments_loop. repeat case_match; eauto.
  apply IH.
  assert (length (os_path_split p).1 < length p) by by apply os_path_split_shorter.
  lia.
Qed.

(** [should_ignore_file] returns a boolean for every path: the loop ends and
    nothing is raised. *)
Lemma should_ignore_file_total (p : ustring) : ∃ b, should_ignore_file p = Ok b.
Proof.
  unfold should_ignore_file. case_match; eauto.
  apply (walk_segments_total_bounded (S (length p))). lia.
Qed.

Lemma startswith_dot (s : ustring) :
  startswith s (u ".") = true ↔ ∃ r, s = 46%N :: r.
Proof.
  unfold startswith. rewrite bool_decide_eq_true.
  change (u ".") with [46%N]. split; intros [r ->]; by exists r.
Qed.

(** *** Absolute paths *)

Lemma os_path_split_absolute (r : ustring) :
  ∃ r', (os_path_split (sep :: r)).1 = sep :: r'.
Proof.
  destruct (last_occurrence sep (sep :: r)) as (a & t & Heq & Ht); [left|].
  rewrite Heq, os_path_split_last by done. cbn.
  destruct a as [|x a]; [case_decide; [by eexists|done]|].
  injection Heq as <- ->. case_decide; [by eexists|].
  exists (rstrip sep a). apply rstrip_cons_keep. intros Hnil.
  apply rstrip_nil in Hnil. rewrite Hnil in H. destruct H. cbn. f_equal.
  rewrite length_replicate. by rewrite <-replicate_S_end.
Qed.

Lemma walk_segments_absolute (n : nat) (r : ustring) :
  length r < n → walk_segments (sep :: r) = Ok true.
Proof.
  revert r. induction n as [|n IH]; intros r Hlen; [lia|].
  rewrite walk_segments_loop. repeat case_match; try done.
  destruct (os_path_split_absolute r) as [r' Hr'].
  assert (Hshort : length (os_path_split (sep :: r)).1 < length (sep :: r))
    by by apply os_path_split_shorter.
  rewrite Hr' in *. apply IH. cbn in Hshort. lia.
Qed.

(** *** Segments *)

Lemma segments_nonempty (p : ustring) : segments p ≠ [].
Proof. destruct p as [|c p]; cbn; [done|]. repeat case_match; done. Qed.

Lemma segments_last (p seg : ustring) (segs : list ustring) :
  segments p = seg :: segs →
  (segs = [] → seg = p) ∧ (∀ l, list.last segs = Some l → l `suffix_of` p).
Proof.
  revert seg segs. induction p as [|c p IH]; intros seg segs; cbn.
  { intros [= <- <-]. by split. }
  pose proof (segments_nonempty p) as Hne.
  destruct (segments p) as [|s0 ss0]; [done|].
  destruct (IH s0 ss0 eq_refl) as [IH1 IH2].
  case_bool_decide; intros [= <- <-].
  - split; [done|]. intros l Hl. apply suffix_cons_r.
    destruct ss0 as [|s1 ss1]; [|by apply IH2].
    injection Hl as <-. by rewrite IH1.
  - split; [by intros ->%IH1|]. intros l Hl. by apply suffix_cons_r, IH2.
Qed.

Lemma leaf_suffix (p : ustring) : leaf p `suffix_of` p.
Proof.
  unfold leaf. pose proof (segments_nonempty p) as Hne.
  destruct (segments p) as [|seg segs] eqn:Hsegs; [done|].
  destruct (segments_last _ _ _ Hsegs) as [H1 H2].
  destruct segs as [|s1 ss1]; [by rewrite H1|].
  destruct (list.last (s1 :: ss1)) as [l|] eqn:Hl.
  - rewrite last_cons, Hl. cbn. by apply H2.
  - by apply last_None in Hl.
Qed.

Lemma segments_hidden_first (p seg : ustring) (segs : list ustring) :
  segments p = seg :: segs → startswith seg (u ".") = true → ∃ r, p = 46%N :: r.
Proof.
  intros Hsegs [r ->]%startswith_dot. destruct p as [|c p]; cbn in Hsegs; [done|].
  case_bool_decide; [done|]. case_match; injection Hsegs as -> _; by eexists.
Qed.

Lemma segments_hidden_later (p seg s : ustring) (segs : list ustring) :
  segments p = seg :: segs → s ∈ segs → startswith s (u ".") = true →
  ∃ a b, p = a ++ sep :: 46%N :: b.
Proof.
  revert seg segs. induction p as [|c p IH]; intros seg segs; cbn.
  { intros [= <- <-] Hin. by apply elem_of_nil in Hin. }
  pose proof (segments_nonempty p) as Hne.
  destruct (segments p) as [|s0 ss0] eqn:Hsegs; [done|].
  case_bool_decide; intros [= <- <-] Hin Hdot.
  - subst c. apply elem_of_cons in Hin as [->|Hin].
    + destruct (segments_hidden_first _ _ _ Hsegs Hdot) as [r ->]. by exists [], r.
    + destruct (IH _ _ eq_refl Hin Hdot) as (a & b & ->). by exists (sep :: a), b.
  - destruct (IH _ _ eq_refl Hin Hdot) as (a & b & ->). by exists (c :: a), b.
Qed.

Lemma segments_hidden (p seg : ustring) :
  seg ∈ segments p → startswith seg (u ".") = true → dot_opens_segment p.
Proof.
  destruct (segments p) as [|s0 ss0] eqn:Hsegs; [by intros ?%elem_of_nil|].
  intros [->|Hin]%elem_of_cons Hdot.
  - left. eauto using segments_hidden_first.
  - right. eauto using segments_hidden_later.
Qed.


(** *** Hidden segments *)

(** One split of a path in which a dot opens a segment: the dot opens the
    tail, or it still opens a segment of the head. *)
Lemma os_path_split_hidden (p : ustring) :
  dot_opens_segment p →
  startswith (os_path_split p).2 (u ".") = true ∨
  dot_opens_segment (os_path_split p).1.
Proof.
  intros Hdot. destruct (decide (sep ∈ p)) as [Hin|Hnot].
  - destruct (last_occurrence _ _ Hin) as (a' & t & -> & Ht).
    rewrite os_path_split_last by done. cbn [fst snd].
    destruct Hdot as [[r Hr]|(a & b & Hab)].
    + destruct a' as [|x a'']; [done|]. injection Hr as -> _.
      right. left. case_decide; [done|].
      exists (rstrip sep a''). by apply rstrip_cons_ne.
    + apply app_eq_inv in Hab as [(k & -> & Hk)|(k & -> & Hk)].
      * destruct k as [|x k]; simplify_eq/=.
        { left. apply startswith_dot. by eexists. }
        destruct k as [|y k]; simplify_eq/=.
        right. right. case_decide as Hall.
        { exists a, (k ++ [sep]). by rewrite <-(assoc_L (++)). }
        exists a, (rstrip sep k).
        rewrite (cons_middle sep a), (assoc_L (++)), rstrip_middle by done.
        by rewrite <-(assoc_L (++)).
      * destruct k as [|x k]; simplify_eq/=.
        { left. apply startswith_dot. by eexists. }
        destruct Ht. apply elem_of_app. right. by left.
  - rewrite os_path_split_nosep by done. cbn [fst snd].
    destruct Hdot as [[r ->]|(a & b & ->)].
    + left. apply startswith_dot. by eexists.
    + destruct Hnot. apply elem_of_app. right. by left.
Qed.

Lemma walk_segments_hidden (n : nat) (p : ustring) :
  length p < n → dot_opens_segment p → walk_segments p = Ok true.
Proof.
  revert p. induction n as [|n IH]; intros p Hlen Hdot; [lia|].
  rewrite walk_segments_loop. case_decide as Hnil.
  { subst p. by destruct Hdot as [[? ?]|(a & ? & ?)]; [|destruct a]. }
  destruct (os_path_split_hidden p Hdot) as [->|Hhead]; [done|].
  repeat case_match; try done.
  apply IH; [|done].
  assert (length (os_path_split p).1 < length p) by by apply os_path_split_shorter.
  lia.
Qed.

Lemma ends_with_any_true (p suffix : ustring) (suffixes : list ustring) :
  suffix ∈ suffixes → endswith p suffix = true → ends_with_any p suffixes = true.
Proof.
  intros Hin Hends. induction suffixes as [|s suffixes IH]; cbn.
  - by apply elem_of_nil in Hin.
  - apply elem_of_cons in Hin as [<-|Hin]; [by rewrite Hends|].
    case_match; [done|]. by apply IH.
Qed.

(** C4: a path whose leaf segment ends with one of the reserved suffixes
    ([.backup], [.tmp], [.conflict]) is ignored, whatever its other segments
    are, and so is a path one of whose segments, the leaf included, begins
    with the hidden-file marker [.]. *)
Theorem should_ignore_file_reserved_or_hidden (p : ustring) :
  (∃ suffix, suffix ∈ [u ".backup"; u ".tmp"; u ".conflict"] ∧
             endswith (leaf p) suffix = true) ∨
  (∃ seg, seg ∈ segments p ∧ startswith seg (u ".") = true) →
  should_ignore_file p = Ok true.
Proof.
  unfold should_ignore_file. intros [(suffix & Hin & Hends)|(seg & Hin & Hdot)].
  - rewrite (ends_with_any_true p suffix); [done|done|].
    unfold endswith in *. apply bool_decide_eq_true in Hends.
    apply bool_decide_eq_true. etrans; [done|apply leaf_suffix].
  - case_match; [done|].
    apply (walk_segments_hidden (S (length p))); [lia|].
    eauto using segments_hidden.
Qed.

Lemma should_ignore_file_reserved_or_hidden_witness :
  should_ignore_file (u ".git/objects/pack.tmp") = Ok true.
Proof.
  apply should_ignore_file_reserved_or_hidden.
  left. exists (u ".tmp"). split; [|by vm_compute].
  apply elem_of_cons. right. apply elem_of_cons. by left.
Defined.

(** C9: every absolute path is ignored.  A path that begins with the
    separator makes [should_ignore_file] return [True], also when none of its
    segments begins with a dot and no reserved suffix matches: the walk
    cannot get past the root. *)
Theorem should_ignore_file_absolute (r : ustring) :
  should_ignore_file (sep :: r) = Ok true.
Proof.
  unfold should_ignore_file. case_match; [done|].
  apply (walk_segments_absolute (S (length r))). lia.
Qed.

End ignore.

(** ** The Tahoe-LAFS client *)

Section tahoe.

Import tahoe_client.

Example strip_sample :
  strip (" URI:CHK:aaaa" +:+ String (Ascii.ascii_of_nat 10) EmptyString) = "URI:CHK:aaaa".
Proof. reflexivity. Qed.

Lemma _get_content_check_code_run (codes : gset Z) (res : response) (w : world) :
  _get_content_check_code codes res w =
  (match failure res with
   | Some reason => Raise (ResponseFailed reason)
   | None =>
     if bool_decide (code res ∈ codes) then Ok (body_of res)
     else Raise (TahoeAPIError (code res) (Some (body_of res)))
   end, w).
Proof.
  unfold _get_content_check_code, readBody, lift, mbind, M_bind, body_of.
  destruct (failure res); [done|].
  case_bool_decide; case_bool_decide; done.
Qed.

(** A request that is answered, followed by the check of the status. *)
Lemma request_then_check (client : HTTPClient) (req : request) (codes : gset Z)
    (k : string → string) (w : world) :
  (res ← http_request client req;
   capability_string ← _get_content_check_code codes res;
   mret (k capability_string)) w =
  (let res := respond client (sent w) req in
   match failure res with
   | Some reason => Raise (ResponseFailed reason)
   | None =>
     if bool_decide (code res ∈ codes) then Ok (k (body_of res))
     else Raise (TahoeAPIError (code res) (Some (body_of res)))
   end, after_request w req).
Proof.
  unfold mbind at 1. unfold M_bind at 1. unfold http_request.
  unfold mbind, M_bind. rewrite _get_content_check_code_run. cbn.
  destruct (failure _); [done|]. by case_bool_decide.
Qed.


Lemma create_immutable_run (self : TahoeClient) (producer : payload) (w : world) :
  create_immutable self producer w =
  (let res := respond (http_client self) (sent w)
                (Request "PUT" (child (url self) "uri") (Some producer)) in
   match failure res with
   | Some reason => Raise (ResponseFailed reason)
   | None =>
     if bool_decide (code res = CREATED) then Ok (strip (body_of res))
     else Raise (TahoeAPIError (code res) (Some (body_of res)))
   end,
   after_request w (Request "PUT" (child (url self) "uri") (Some producer))).
Proof.
  unfold create_immutable, _request. rewrite request_then_check. cbn zeta.
  destruct (failure _); [done|].
  by rewrite (bool_decide_ext _ _ (elem_of_singleton _ _)).
Qed.

Lemma elem_of_OK_CREATED (c : Z) : c ∈ ({[OK; CREATED]} : gset Z) ↔ c = OK ∨ c = CREATED.
Proof. by rewrite elem_of_union, !elem_of_singleton. Qed.

Lemma create_immutable_directory_run (self : TahoeClient) (directory_data : json) (w : world) :
  create_immutable_directory self directory_data w =
  (let res := respond (http_client self) (sent w)
                (Request "POST" (replace (url self) ["uri"] [("t", "mkdir-immutable")])
                         (Some (Dumps directory_data))) in
   match failure res with
   | Some reason => Raise (ResponseFailed reason)
   | None =>
     if bool_decide (code res = OK ∨ code res = CREATED) then Ok (strip (body_of res))
     else Raise (TahoeAPIError (code res) (Some (body_of res)))
   end,
   after_request w (Request "POST" (replace (url self) ["uri"] [("t", "mkdir-immutable")])
                            (Some (Dumps directory_data)))).
Proof.
  unfold create_immutable_directory, _request. rewrite request_then_check. cbn zeta.
  destruct (failure _); [done|].
  by rewrite (bool_decide_ext _ _ (elem_of_OK_CREATED _)).
Qed.

Lemma create_mutable_directory_run (self : TahoeClient) (w : world) :
  create_mutable_directory self w =
  (let res := respond (http_client self) (sent w)
                (Request "POST" (replace (url self) ["uri"] [("t", "mkdir")]) None) in
   match failure res with
   | Some reason => Raise (ResponseFailed reason)
   | None =>
     if bool_decide (code res = OK ∨ code res = CREATED) then Ok (body_of res)
     else Raise (TahoeAPIError (code res) (Some (body_of res)))
   end,
   after_request w (Request "POST" (replace (url self) ["uri"] [("t", "mkdir")]) None)).
Proof.
  unfold create_mutable_directory, _request.
  rewrite (request_then_check _ _ _ (λ capability_string, capability_string)). cbn zeta.
  destruct (failure _); [done|].
  by rewrite (bool_decide_ext _ _ (elem_of_OK_CREATED _)).
Qed.

Lemma download_capability_run (self : TahoeClient) (cap : string) (w : world) :
  download_capability self cap w =
  (let res := respond (http_client self) (sent w)
                (Request "GET" (replace (url self) ["uri"] [("uri", cap)]) None) in
   match failure res with
   | Some reason => Raise (ResponseFailed reason)
   | None =>
     if bool_decide (code res = OK) then Ok (body_of res)
     else Raise (TahoeAPIError (code res) (Some (body_of res)))
   end,
   after_request w (Request "GET" (replace (url self) ["uri"] [("uri", cap)]) None)).
Proof.
  unfold download_capability, _request.
  rewrite (request_then_check _ _ _ (λ data, data)). cbn zeta.
  destruct (failure _); [done|].
  by rewrite (bool_decide_ext _ _ (elem_of_singleton _ _)).
Qed.

(** Writing chunks never raises, and leaves the requests, files and clock
    alone. *)
Lemma collect_chunks_write (cs : list string) (filelike : nat) (w : world) :
  ∃ written', collect_chunks cs (write filelike) w =
              (Ok (), World (sent w) written' (files w) (clock w)).
Proof.
  revert w. induction cs as [|c cs IH]; intros w; cbn.
  - exists (written w). by destruct w.
  - unfold mbind, M_bind, write at 1.
    edestruct IH as [written' ->]. by eexists.
Qed.

Lemma stream_capability_run (self : TahoeClient) (cap : string) (filelike : nat) (w : world) :
  stream_capability self cap filelike w =
  (let req := Request "GET" (replace (url self) ["uri"] [("uri", cap)]) None in
   let res := respond (http_client self) (sent w) req in
   if bool_decide (code res = OK) then collect res (write filelike) (after_request w req)
   else (Raise (TahoeAPIError (code res) None), after_request w req)).
Proof.
  unfold stream_capability, mbind, M_bind, http_request. cbn zeta.
  by case_bool_decide; case_bool_decide.
Qed.


(** C10: when [create_immutable], [create_immutable_directory],
    [create_mutable_directory] or [download_capability] raises
    [TahoeAPIError], the error carries the status and the whole body of the
    response (the body has been read in full before the status is looked at).
    [stream_capability] raises [TahoeAPIError] with body [None] on a status
    other than 200, and only then; what had been written to the sink before
    stays written. *)
Theorem TahoeAPIError_body (self : TahoeClient) (directory_data : json)
    (producer : payload) (cap : string) (filelike : nat) (w : world) :
  (∀ (op : M string) (req : request) (c : Z) (b : option string),
     In (op, req)
        [(create_immutable self producer,
          Request "PUT" (child (url self) "uri") (Some producer));
         (create_immutable_directory self directory_data,
          Request "POST" (replace (url self) ["uri"] [("t", "mkdir-immutable")])
                  (Some (Dumps directory_data)));
         (create_mutable_directory self,
          Request "POST" (replace (url self) ["uri"] [("t", "mkdir")]) None);
         (download_capability self cap,
          Request "GET" (replace (url self) ["uri"] [("uri", cap)]) None)] →
     (op w).1 = Raise (TahoeAPIError c b) →
     let res := respond (http_client self) (sent w) req in
     failure res = None ∧ c = code res ∧ b = Some (body_of res)) ∧
  (let get := Request "GET" (replace (url self) ["uri"] [("uri", cap)]) None in
   let res := respond (http_client self) (sent w) get in
   let out := stream_capability self cap filelike w in
   (code res ≠ OK →
    out = (Raise (TahoeAPIError (code res) None), after_request w get) ∧
    written out.2 = written w) ∧
   (∀ c' b', out.1 = Raise (TahoeAPIError c' b') → code res ≠ OK ∧ b' = None)).
Proof.
  split.
  - intros op req c b Hop Hraise. cbn in Hop.
    destruct Hop as [[= <- <-]|[[= <- <-]|[[= <- <-]|[[= <- <-]|[]]]]];
      [rewrite create_immutable_run in Hraise
      |rewrite create_immutable_directory_run in Hraise
      |rewrite create_mutable_directory_run in Hraise
      |rewrite download_capability_run in Hraise];
      cbn in Hraise; cbn zeta;
      destruct (failure _); try done;
      case_bool_decide; by simplify_eq.
  - cbn zeta. rewrite stream_capability_run. cbn zeta. split.
    + intros Hcode. by rewrite bool_decide_eq_false_2.
    + intros c' b'. case_bool_decide; [|by intros [= _ <-]].
      unfold collect, mbind, M_bind.
      edestruct collect_chunks_write as [written' ->].
      by destruct (failure _).
Qed.

Lemma TahoeAPIError_body_witness :
  failure (Response 500 ["Internal "; "Server Error"] None) = None ∧
  500%Z = code (Response 500 ["Internal "; "Server Error"] None) ∧
  Some "Internal Server Error" = Some (body_of (Response 500 ["Internal "; "Server Error"] None)).
Proof.
  refine (proj1 (TahoeAPIError_body
                   (create_tahoe_client (from_text "http://127.0.0.1:3456")
                      (always (Response 500 ["Internal "; "Server Error"] None)))
                   (JDict ∅) (Bytes "foo") "URI:CHK:aaaa" 0 fresh_world)
                (create_immutable
                   (create_tahoe_client (from_text "http://127.0.0.1:3456")
                      (always (Response 500 ["Internal "; "Server Error"] None)))
                   (Bytes "foo")) _
                500%Z (Some "Internal Server Error") _ _).
  - left. reflexivity.
  - vm_compute. reflexivity.
Defined.

End tahoe.

(** ** Snapshot creation *)

Section snapshots.

Import snapshot.

Example str_samples :
  str (Int 1588000000) = "1588000000" ∧ str SNAPSHOT_VERSION = "1" ∧ str (Int (-5)) = "-5" ∧
  str (Float sample_time) = "1588000000.5" ∧
  str (Float (S754_finite false 1588000000 0)) = "1588000000.0" ∧
  str (Float (S754_finite false 6407219290003473 (-22))) = "1527600119.11" ∧
  str (Float (S754_finite false 1 (-1074))) = "4.94065645841e-324" ∧
  str (Float (S754_finite true 3 37)) = "-4.12316860416e+11" ∧
  str (Float (S754_infinity false)) = "inf".
Proof. by vm_compute. Qed.

(** A whole run: the content is put, the directory is posted with the
    capability of the content, and the capability of the directory comes
    back. *)
Example snapshot_create_sample :
  snapshot_create (λ _, "http://127.0.0.1:3456") (λ _ _, raise (Exception "bad response"))
    base (λ _, "<Response>")
    sample_node "/home/alice/node" "/tmp/foo" ["URI:DIR2-CHK:pppp"] fresh_world =
  (Ok "URI:DIR2-CHK:bbbb",
   World [Request "PUT" (Url "http://127.0.0.1:3456" ["uri"] [("format", "CHK")])
                  (Some (Bytes "foo"));
          Request "POST" (Url "http://127.0.0.1:3456" ["uri"] [("t", "mkdir-immutable")])
                  (Some (Dumps (JDict {[ "content" := filenode "URI:CHK:aaaa";
                                         "version" := filenode "1";
                                         "timestamp" := filenode "1588000000.5";
                                         "parents" := JList [JString "URI:DIR2-CHK:pppp"] ]})))]
         ∅ {[ "/tmp/foo" := "foo" ]} sample_time).
Proof. by vm_compute. Qed.

Lemma tahoe_put_immutable_run (to_text : URL → string) (repr_response : response → string)
    (nodeurl filepath : string) (treq : HTTPClient) (w : world) :
  tahoe_put_immutable to_text repr_response nodeurl filepath treq w =
  match files w !! filepath with
  | None => (Raise (IOError filepath), w)
  | Some data =>
    let put := Request "PUT" (add (child (from_text nodeurl) "uri") "format" "CHK")
                       (Some (Bytes data)) in
    let res := respond treq (sent w) put in
    (if bool_decide (code res = OK ∨ code res = CREATED) then
       match failure res with
       | Some reason => Raise (ResponseFailed reason)
       | None => Ok (body_of res)
       end
     else Raise (Exception ("Error response PUT " +:+ to_text (target put) +:+ " - "
                            +:+ repr_response res)),
     after_request w put)
  end.
Proof.
  unfold tahoe_put_immutable, mbind, M_bind, read_file, http_request, readBody, lift.
  destruct (files w !! filepath) as [data|]; [|done]. cbn zeta.
  rewrite bool_decide_or. destruct (_ || _); [|done].
  by destruct (failure _).
Qed.

Lemma tahoe_create_snapshot_dir_run (bad_response : URL → response → M string)
    (nodeurl content : string) (parents : list string) (timestamp : number)
    (treq : HTTPClient) (w : world) :
  tahoe_create_snapshot_dir bad_response nodeurl content parents timestamp treq w =
  let body : gmap string json :=
    {[ "content" := filenode content;
       "version" := filenode "1";
       "timestamp" := filenode (str timestamp) ]} in
  let body :=
    if decide (parents = []) then body
    else <["parents" := JList (JString <$> parents)]> body in
  let url := add (child (from_text nodeurl) "uri") "t" "mkdir-immutable" in
  let post := Request "POST" url (Some (Dumps (JDict body))) in
  let res := respond treq (sent w) post in
  if decide (code res = OK) then
    (match failure res with
     | Some reason => Raise (ResponseFailed reason)
     | None => Ok (body_of res)
     end, after_request w post)
  else bad_response url res (after_request w post).
Proof.
  unfold tahoe_create_snapshot_dir, mbind, M_bind, http_request, readBody, lift.
  cbn zeta. change (str SNAPSHOT_VERSION) with "1". unfold filenode.
  destruct (decide (parents = [])) as [->|Hne].
  - rewrite (bool_decide_eq_false_2 ([] ≠ [])) by by intros [].
    case_bool_decide; case_decide; try done.
    by destruct (failure _).
  - rewrite (bool_decide_eq_true_2 (parents ≠ [])) by done.
    case_bool_decide; case_decide; try done.
    by destruct (failure _).
Qed.


Lemma M_bind_mret {A} (m : M A) (w : world) : (x ← m; mret x) w = m w.
Proof. unfold mbind, M_bind, mret, M_ret. by destruct (m w) as [[a|e] w']. Qed.

Lemma snapshot_create_run (get_node_url : string → string)
    (bad_response : URL → response → M string)
    (to_text : URL → string) (repr_response : response → string)
    (reactor_client : HTTPClient)
    (node_directory filepath : string) (parents : list string) (w : world) :
  snapshot_create get_node_url bad_response to_text repr_response reactor_client
    node_directory filepath parents w =
  match tahoe_put_immutable to_text repr_response (get_node_url node_directory) filepath
          reactor_client w with
  | (Ok content_cap, w1) =>
    tahoe_create_snapshot_dir bad_response (get_node_url node_directory) content_cap
      parents (Float (clock w1)) reactor_client w1
  | (Raise e, w1) => (Raise e, w1)
  end.
Proof.
  unfold snapshot_create, _store_file_immutable. cbn zeta.
  unfold mbind at 1. unfold M_bind at 1. rewrite M_bind_mret.
  destruct (tahoe_put_immutable _ _ _ _ _ w) as [[content_cap|e] w1]; [|done].
  unfold mbind at 1. unfold M_bind at 1. unfold time_time at 1.
  by rewrite M_bind_mret.
Qed.

(** C3: the directory object of a snapshot.  [tahoe_create_snapshot_dir]
    posts a field set in which [content] holds the content capability,
    [version] the string ["1"] and [timestamp] what [str] makes of the
    timestamp, be it an integer (its decimal numeral) or a float (its decimal
    rendering in twelve significant digits); [parents] is there exactly when
    the list of parents is not empty, and is then that list, in the order
    given.  When the node answers 200 the call returns the body of the answer,
    the capability of the new directory.  [snapshot_create] calls it with the
    capability it got for the file's content and the float that [time.time()]
    returned after the upload, and returns what it returns. *)
Theorem snapshot_dir_fields (get_node_url : string → string)
    (bad_response : URL → response → M string)
    (to_text : URL → string) (repr_response : response → string)
    (reactor_client treq : HTTPClient)
    (nodeurl content node_directory filepath : string) (parents : list string)
    (timestamp : number) (w : world) :
  (∃ body : gmap string json,
     (body !! "content" = Some (filenode content) ∧
      body !! "version" = Some (filenode "1") ∧
      body !! "timestamp" = Some (filenode (str timestamp)) ∧
      (is_Some (body !! "parents") ↔ parents ≠ []) ∧
      (∀ v, body !! "parents" = Some v → v = JList (JString <$> parents))) ∧
     let url := add (child (from_text nodeurl) "uri") "t" "mkdir-immutable" in
     let post := Request "POST" url (Some (Dumps (JDict body))) in
     let res := respond treq (sent w) post in
     tahoe_create_snapshot_dir bad_response nodeurl content parents timestamp treq w =
     if decide (code res = OK) then
       (match failure res with
        | Some reason => Raise (ResponseFailed reason)
        | None => Ok (body_of res)
        end, after_request w post)
     else bad_response url res (after_request w post)) ∧
  snapshot_create get_node_url bad_response to_text repr_response reactor_client
    node_directory filepath parents w =
  match tahoe_put_immutable to_text repr_response (get_node_url node_directory) filepath
          reactor_client w with
  | (Ok content_cap, w1) =>
    tahoe_create_snapshot_dir bad_response (get_node_url node_directory) content_cap
      parents (Float (clock w1)) reactor_client w1
  | (Raise e, w1) => (Raise e, w1)
  end.
Proof.
  split; [|apply snapshot_create_run].
  rewrite tahoe_create_snapshot_dir_run. cbn zeta.
  eexists. split; [|reflexivity].
  case_decide as Hparents.
  - subst parents. repeat split; try done. by intros [v Hv].
  - repeat split; try done.
    intros v. rewrite lookup_insert_eq. by intros [= <-].
Qed.


(** C6, as stated: putting an immutable object succeeds exactly when the
    status is 201.  [tahoe_put_immutable] also succeeds on 200. *)
Lemma tahoe_put_immutable_accepts_ok :
  OK ≠ CREATED ∧
  ∃ cap, (tahoe_put_immutable base (λ _, "<Response>") "http://127.0.0.1:3456" "/tmp/foo"
            (always (Response OK ["URI:CHK:aaaa"] None)) fresh_world).1 = Ok cap.
Proof. split; [done|]. by eexists. Qed.

(** C6, amended: [TahoeClient.create_immutable] returns the capability, the
    body of the response without the white space around it, exactly when the
    status is 201, and raises [TahoeAPIError] with the status and the body
    for every other status.  [tahoe_put_immutable] returns the body when the
    status is 200 or 201 and raises a plain [Exception] otherwise. *)
Theorem put_immutable_statuses (self : tahoe_client.TahoeClient) (producer : payload)
    (to_text : URL → string) (repr_response : response → string)
    (nodeurl filepath data : string) (treq : HTTPClient) (w : world) :
  let res := respond (tahoe_client.http_client self) (sent w)
               (Request "PUT" (child (tahoe_client.url self) "uri") (Some producer)) in
  let res' := respond treq (sent w)
                (Request "PUT" (add (child (from_text nodeurl) "uri") "format" "CHK")
                         (Some (Bytes data))) in
  let adapter := (tahoe_client.create_immutable self producer w).1 in
  let legacy := (tahoe_put_immutable to_text repr_response nodeurl filepath treq w).1 in
  (failure res = None →
   (code res = CREATED → adapter = Ok (strip (body_of res))) ∧
   (code res ≠ CREATED → adapter = Raise (TahoeAPIError (code res) (Some (body_of res))))) ∧
  (files w !! filepath = Some data →
   (code res' = OK ∨ code res' = CREATED → failure res' = None →
    legacy = Ok (body_of res')) ∧
   (¬ (code res' = OK ∨ code res' = CREATED) → ∃ msg, legacy = Raise (Exception msg))).
Proof.
  cbn zeta. rewrite create_immutable_run, tahoe_put_immutable_run. cbn [fst]. split.
  - intros ->. split; intros Hcode.
    + by rewrite bool_decide_eq_true_2.
    + by rewrite bool_decide_eq_false_2.
  - intros ->. cbn [fst]. split.
    + intros Hcode ->. by rewrite bool_decide_eq_true_2.
    + intros Hcode. rewrite bool_decide_eq_false_2 by done. by eexists.
Qed.

Lemma put_immutable_statuses_witness :
  (tahoe_client.create_immutable
     (tahoe_client.create_tahoe_client (from_text "http://127.0.0.1:3456")
        (answering CREATED "URI:CHK:aaaa"))
     (Bytes "foo") fresh_world).1 = Ok "URI:CHK:aaaa".
Proof.
  refine (proj1 (proj1 (put_immutable_statuses
                          (tahoe_client.create_tahoe_client (from_text "http://127.0.0.1:3456")
                             (answering CREATED "URI:CHK:aaaa"))
                          (Bytes "foo") base (λ _, "<Response>")
                          "http://127.0.0.1:3456" "/tmp/foo" "foo"
                          (answering CREATED "URI:CHK:aaaa") fresh_world) _) _);
    reflexivity.
Defined.

(** C7, as stated: creating an immutable directory succeeds when the status
    is 200 or 201.  [tahoe_create_snapshot_dir] takes 201 for a bad response:
    with a [bad_response] that raises, nothing is returned. *)
Lemma tahoe_create_snapshot_dir_rejects_created :
  (tahoe_create_snapshot_dir (λ _ _, raise (Exception "bad response"))
     "http://127.0.0.1:3456" "URI:CHK:aaaa" [] (Float sample_time)
     (always (Response CREATED ["URI:DIR2-CHK:bbbb"] None)) fresh_world).1
  = Raise (Exception "bad response").
Proof. reflexivity. Qed.

(** C7, amended: [TahoeClient.create_immutable_directory] returns the
    capability, the body of the response without the white space around it,
    exactly when the status is 200 or 201, and raises [TahoeAPIError] with the
    status and the body for every other status.  [tahoe_create_snapshot_dir]
    returns the body when the status is 200 and hands every other response,
    201 included, to [bad_response]. *)
Theorem put_immutable_directory_statuses (self : tahoe_client.TahoeClient)
    (directory_data : json) (bad_response : URL → response → M string)
    (nodeurl content : string) (parents : list string) (timestamp : number)
    (treq : HTTPClient) (w : world) :
  let res := respond (tahoe_client.http_client self) (sent w)
               (Request "POST" (replace (tahoe_client.url self) ["uri"] [("t", "mkdir-immutable")])
                        (Some (Dumps directory_data))) in
  let adapter := (tahoe_client.create_immutable_directory self directory_data w).1 in
  let legacy := tahoe_create_snapshot_dir bad_response nodeurl content parents timestamp treq w in
  (failure res = None →
   (code res = OK ∨ code res = CREATED → adapter = Ok (strip (body_of res))) ∧
   (¬ (code res = OK ∨ code res = CREATED) →
    adapter = Raise (TahoeAPIError (code res) (Some (body_of res))))) ∧
  ∃ post,
    method post = "POST" ∧
    target post = add (child (from_text nodeurl) "uri") "t" "mkdir-immutable" ∧
    (code (respond treq (sent w) post) = OK →
     failure (respond treq (sent w) post) = None →
     legacy = (Ok (body_of (respond treq (sent w) post)), after_request w post)) ∧
    (code (respond treq (sent w) post) ≠ OK →
     legacy = bad_response (target post) (respond treq (sent w) post) (after_request w post)).
Proof.
  cbn zeta.
  rewrite create_immutable_directory_run, tahoe_create_snapshot_dir_run.
  cbn [fst]. cbn zeta. split.
  - intros ->. split; intros Hcode.
    + by rewrite bool_decide_eq_true_2.
    + by rewrite bool_decide_eq_false_2.
  - match goal with |- context [respond treq (sent w) ?p] => exists p end.
    split_and!; [done|done|..].
    + intros Hcode Hfail. rewrite decide_True by done. by rewrite Hfail.
    + intros Hcode. by rewrite decide_False.
Qed.

Lemma put_immutable_directory_statuses_witness :
  (tahoe_client.create_immutable_directory
     (tahoe_client.create_tahoe_client (from_text "http://127.0.0.1:3456")
        (answering OK "URI:DIR2-CHK:bbbb"))
     (JDict ∅) fresh_world).1 = Ok "URI:DIR2-CHK:bbbb".
Proof.
  refine (proj1 (proj1 (put_immutable_directory_statuses
                          (tahoe_client.create_tahoe_client (from_text "http://127.0.0.1:3456")
                             (answering OK "URI:DIR2-CHK:bbbb"))
                          (JDict ∅) (λ _ _, raise (Exception "bad response"))
                          "http://127.0.0.1:3456" "URI:CHK:aaaa" [] (Float sample_time)
                          (answering OK "URI:DIR2-CHK:bbbb") fresh_world) _) _).
  - reflexivity.
  - left. reflexivity.
Defined.

End snapshots.

(** ** Local capture *)

Section capture.

Import magicpath local_capture.

Lemma submit_accepted (target relpath : ustring) (bytes : string) (st : folder) :
  disk st !! target = Some (RegularFile bytes) →
  relative_to (root st) target = Some relpath →
  should_ignore_file relpath = Ok false →
  submit target st =
  let encoded := relpath ≫= escape in
  let snap := mkLocalSnapshot (next_identifier st) relpath (folder_author st) []
                (next_identifier st) (option_list (index st !! encoded))
                (default [] (remote_ancestry st !! encoded)) in
  (Ok snap,
   Folder (root st) (folder_author st) (disk st)
          (<[next_identifier st := bytes]> (stash st))
          (<[encoded := snap]> (index st))
          (remote_ancestry st) (N.succ (next_identifier st))).
Proof.
  intros Hfile Hrel Hignore. unfold submit.
  by rewrite Hfile, Hrel, Hignore, path2magic_escape.
Qed.

Lemma submit_edits_chained (target relpath : ustring) (contents : list string) (st : folder) :
  relative_to (root st) target = Some relpath →
  should_ignore_file relpath = Ok false →
  ∃ snaps,
    (submit_edits target contents st).1 = Ok <$> snaps ∧
    length snaps = length contents ∧
    chained (index st !! (relpath ≫= escape)) snaps.
Proof.
  intros Hrel Hignore. revert st Hrel.
  induction contents as [|bytes contents IH]; intros st Hrel; [by exists []|].
  cbn [submit_edits].
  rewrite (submit_accepted target relpath bytes (write_file target bytes st));
    [|by apply lookup_insert_eq|done..].
  cbn zeta. cbn [write_file root folder_author disk stash index remote_ancestry next_identifier].
  match goal with |- context [submit_edits _ _ ?st1] =>
    destruct (IH st1) as (snaps & Hout & Hlen & Hchain); [done|] end.
  destruct (submit_edits _ _ _) as [outcomes st2]. cbn [fst] in *.
  eexists (_ :: snaps). split_and!.
  - by rewrite Hout.
  - cbn. by rewrite Hlen.
  - cbn [chained]. split; [done|].
    cbn [index] in Hchain. by rewrite lookup_insert_eq in Hchain.
Qed.

Lemma chained_lookup (prev : option LocalSnapshot) (snaps : list LocalSnapshot)
    (k : nat) (before snap : LocalSnapshot) :
  chained prev snaps → snaps !! k = Some before → snaps !! S k = Some snap →
  parents_local snap = [before].
Proof.
  revert prev k. induction snaps as [|s snaps IH]; intros prev k; [done|].
  intros [_ Hchain] Hbefore Hsnap. destruct k as [|k].
  - injection Hbefore as ->. destruct snaps as [|s' snaps]; [done|].
    injection Hsnap as ->. by destruct Hchain.
  - by eapply IH.
Qed.

Lemma chain_length_parents (snap : LocalSnapshot) :
  chain_length snap =
  match parents_local snap with
  | [parent] => S (chain_length parent)
  | _ => 1
  end.
Proof. by destruct snap. Qed.

Lemma chained_length (prev : option LocalSnapshot) (snaps : list LocalSnapshot)
    (k : nat) (snap : LocalSnapshot) :
  chained prev snaps → snaps !! k = Some snap →
  chain_length snap = S k + from_option chain_length 0 prev.
Proof.
  revert prev k. induction snaps as [|s snaps IH]; intros prev k; [done|].
  intros [Hparents Hchain] Hsnap. destruct k as [|k].
  - injection Hsnap as ->. rewrite chain_length_parents, Hparents.
    by destruct prev.
  - rewrite (IH _ _ Hchain Hsnap). cbn.
    rewrite (chain_length_parents s), Hparents. destruct prev; cbn; lia.
Qed.

(** C8: chain integrity.  [n] edits of one accepted path, submitted one
    after the other, are all captured; the [n] snapshots come out in the order
    of submission, and each one after the first has exactly one local parent,
    the snapshot captured just before it.  When the index held no record for
    the path, the first snapshot has no local parent and the [k]-th ends a
    chain of [k] snapshots. *)
Theorem local_chain_integrity (target relpath encoded : ustring)
    (contents : list string) (st : folder) :
  relative_to (root st) target = Some relpath →
  should_ignore_file relpath = Ok false →
  path2magic relpath = Ok encoded →
  ∃ snaps : list LocalSnapshot,
    (submit_edits target contents st).1 = Ok <$> snaps ∧
    length snaps = length contents ∧
    (∀ k before snap,
       snaps !! k = Some before → snaps !! S k = Some snap →
       parents_local snap = [before]) ∧
    (index st !! encoded = None →
     ∀ k snap, snaps !! k = Some snap →
               chain_length snap = S k ∧ (k = 0 → parents_local snap = [])).
Proof.
  intros Hrel Hignore Hencoded.
  rewrite path2magic_escape in Hencoded. injection Hencoded as <-.
  destruct (submit_edits_chained target relpath contents st Hrel Hignore)
    as (snaps & Hout & Hlen & Hchain).
  exists snaps. split_and!; [done|done|..].
  - intros k before snap. by apply chained_lookup with (prev := index st !! (relpath ≫= escape)).
  - intros Hnone k snap Hsnap. rewrite Hnone in Hchain. split.
    + rewrite (chained_length _ _ _ _ Hchain Hsnap). cbn. lia.
    + intros ->. destruct snaps as [|s snaps]; [done|].
      injection Hsnap as ->. by destruct Hchain.
Qed.

Lemma local_chain_integrity_witness :
  ∃ snaps : list LocalSnapshot,
    (submit_edits (u "/home/alice/magic/foo") ["C1"; "C2"; "C3"] fresh_folder).1 = Ok <$> snaps ∧
    length snaps = 3 ∧
    (∀ k before snap,
       snaps !! k = Some before → snaps !! S k = Some snap →
       parents_local snap = [before]) ∧
    (index fresh_folder !! u "foo" = None →
     ∀ k snap, snaps !! k = Some snap →
               chain_length snap = S k ∧ (k = 0 → parents_local snap = [])).
Proof.
  apply (local_chain_integrity (u "/home/alice/magic/foo") (u "foo") (u "foo")
           ["C1"; "C2"; "C3"] fresh_folder); by vm_compute.
Defined.

End capture.

(** ** More on the path codec *)

Section codec_more.

Import magicpath.

Lemma escape_flat (c : N) : sep ∉ escape c.
Proof.
  unfold escape. change (u "@_") with [64%N; 95%N]. change (u "@@") with [64%N; 64%N].
  repeat case_bool_decide; rewrite !elem_of_cons, elem_of_nil; unfold sep in *;
    intros H'; repeat destruct H' as [H'|H']; done.
Qed.

Lemma length_escape (c : N) : 1 ≤ length (escape c) ≤ 2.
Proof. unfold escape. repeat case_bool_decide; cbn; lia. Qed.

Lemma length_encoding (p : ustring) :
  length p ≤ length (p ≫= escape) ≤ 2 * length p.
Proof.
  induction p as [|c p IH]; cbn [mbind list_bind]; [cbn; lia|].
  rewrite length_app. pose proof (length_escape c). cbn [length]. lia.
Qed.

(** X1: A flat name holds no separator: the encoding of any path can be used as
    one entry name of a directory. *)
Theorem path2magic_flat (p : ustring) : ∃ m, path2magic p = Ok m ∧ sep ∉ m.
Proof.
  exists (p ≫= escape). split; [apply path2magic_escape|].
  intros (c & Hin & _)%list_elem_of_bind. by apply escape_flat in Hin.
Qed.

(** X3: The encoding is never shorter than the path and at most twice as long. *)
Theorem path2magic_length (p : ustring) :
  ∃ m, path2magic p = Ok m ∧ length p ≤ length m ≤ 2 * length p.
Proof. exists (p ≫= escape). split; [apply path2magic_escape|apply length_encoding]. Qed.

(** X4: The paths that are their own encoding are those that hold neither [/]
    nor [@]. *)
Theorem path2magic_fixed (p : ustring) :
  path2magic p = Ok p ↔ ((47%N ∉ p) ∧ (64%N ∉ p)).
Proof.
  rewrite path2magic_escape. split.
  - intros [= Heq]. induction p as [|c p IH].
    { split; apply not_elem_of_nil. }
    cbn [mbind list_bind] in Heq. unfold escape at 1 in Heq.
    change (u "@_") with [64%N; 95%N] in Heq. change (u "@@") with [64%N; 64%N] in Heq.
    pose proof (length_encoding p) as Hlen.
    repeat case_bool_decide; subst; cbn [app] in Heq; injection Heq as Heq; try done.
    + apply (f_equal length) in Heq. cbn [length] in Heq. lia.
    + destruct (IH Heq) as [Hslash Hat]. by rewrite !not_elem_of_cons.
  - intros [Hslash Hat]. f_equal. induction p as [|c p IH]; [done|].
    apply not_elem_of_cons in Hslash as [? ?], Hat as [? ?].
    cbn [mbind list_bind]. unfold escape at 1.
    rewrite !bool_decide_eq_false_2 by done. cbn [app]. by rewrite IH.
Qed.

Lemma malformed_escape (c : N) (m : ustring) : malformed (escape c ++ m) = malformed m.
Proof.
  unfold escape. change (u "@_") with [64%N; 95%N]. change (u "@@") with [64%N; 64%N].
  repeat case_bool_decide; subst; try done.
  cbn. by rewrite bool_decide_eq_false_2.
Qed.

Lemma malformed_encoding (p : ustring) : malformed (p ≫= escape) = false.
Proof.
  induction p as [|c p IH]; [done|].
  cbn [mbind list_bind]. by rewrite malformed_escape.
Qed.

Lemma encoding_unescape_bounded (n : nat) (m : ustring) :
  length m ≤ n → malformed m = false → sep ∉ m → unescape m ≫= escape = m.
Proof.
  revert m. induction n as [|n IH]; intros [|c rest] Hlen; try done.
  { cbn in Hlen. lia. }
  cbn [malformed unescape]. intros Hwell [Hc Hrest]%not_elem_of_cons.
  case_bool_decide as Hat.
  - subst c. destruct rest as [|d rest']; [done|].
    apply not_elem_of_cons in Hrest as [Hd Hrest'].
    assert (unescape rest' ≫= escape = rest') as IH'.
    { apply IH; [cbn in Hlen; lia| |done].
      by destruct (bool_decide (d = 95%N) || bool_decide (d = 64%N)). }
    repeat case_bool_decide; subst; try done;
      cbn [mbind list_bind]; by rewrite IH'.
  - cbn [mbind list_bind]. rewrite IH by (done || cbn in Hlen; lia).
    unfold escape. unfold sep in Hc. by rewrite !bool_decide_eq_false_2.
Qed.

(** X5: The flat names that are the encoding of some path are those without a
    separator in which every [@] opens [@_] or [@@]. *)
Theorem path2magic_image (m : ustring) :
  (∃ p, path2magic p = Ok m) ↔ (malformed m = false ∧ sep ∉ m).
Proof.
  split.
  - intros [p Hp]. rewrite path2magic_escape in Hp. injection Hp as <-. split.
    + apply malformed_encoding.
    + intros (c & Hin & _)%list_elem_of_bind. by apply escape_flat in Hin.
  - intros [Hwell Hflat]. exists (unescape m).
    rewrite path2magic_escape. f_equal. by apply (encoding_unescape_bounded (length m)).
Qed.

(** X6: Encoding undoes decoding on well-formed flat names.  (On other names it
    does not: see [path2magic_image].) *)
Theorem path2magic_magic2path (m : ustring) :
  malformed m = false → sep ∉ m → (p ← magic2path m; path2magic p) = Ok m.
Proof.
  intros Hwell Hflat. rewrite magic2path_unescape. cbn.
  rewrite path2magic_escape. f_equal. by apply (encoding_unescape_bounded (length m)).
Qed.

Lemma path2magic_magic2path_witness :
  (p ← magic2path (u "dir@_a@@b"); path2magic p) = Ok (u "dir@_a@@b").
Proof.
  apply path2magic_magic2path; [reflexivity|].
  apply (bool_decide_unpack _). by vm_compute.
Defined.

Lemma length_unescape_bounded (n : nat) (m : ustring) :
  length m ≤ n → length (unescape m) ≤ length m ∧ (64%N ∉ m → unescape m = m).
Proof.
  revert m. induction n as [|n IH]; intros [|c rest] Hlen; try done.
  { cbn in Hlen. lia. }
  cbn [unescape]. destruct (IH rest) as [IHlen IHid]; [cbn in Hlen; lia|].
  case_bool_decide as Hat.
  - subst c. split; [|by intros []%not_elem_of_cons].
    destruct rest as [|d rest']; [done|].
    destruct (IH rest') as [IHlen' _]; [cbn in Hlen; lia|].
    repeat case_bool_decide; cbn [length] in *; lia.
  - split; [cbn [length]; lia|].
    intros [_ Hrest]%not_elem_of_cons. by rewrite IHid.
Qed.

(** X7: Decoding never lengthens a name, and returns a name without [@] as it
    is. *)
Theorem magic2path_length (m : ustring) :
  ∃ p, magic2path m = Ok p ∧ length p ≤ length m ∧ (64%N ∉ m → p = m).
Proof.
  exists (unescape m). split; [apply magic2path_unescape|].
  by apply (length_unescape_bounded (length m)).
Qed.

End codec_more.

(** ** More on the ignore predicate *)

Section ignore_more.

Import magicpath.
#[local] Arguments u : simpl never.

Lemma dot_opens_segment_prefix (h p : ustring) :
  dot_opens_segment h → h `prefix_of` p → dot_opens_segment p.
Proof.
  intros [[r ->]|(a & b & ->)] [k ->].
  - left. by eexists.
  - right. exists a, (b ++ k). by rewrite <-(assoc_L (++)).
Qed.

Lemma startswith_sep (p : ustring) : startswith p (u "/") = true ↔ ∃ r, p = sep :: r.
Proof.
  unfold startswith. rewrite bool_decide_eq_true.
  change (u "/") with [sep]. split; intros [r ->]; by exists r.
Qed.

(** What the loop has seen when it returns [True]. *)
Lemma walk_segments_true (n : nat) (p : ustring) :
  length p < n → walk_segments p = Ok true →
  (∃ r, p = sep :: r) ∨ dot_opens_segment p.
Proof.
  revert p. induction n as [|n IH]; intros p Hlen; [lia|].
  rewrite walk_segments_loop. case_decide as Hnil; [done|].
  pose proof (os_path_split_prefix p) as Hprefix.
  destruct (decide (sep ∈ p)) as [Hin|Hnot].
  - destruct (last_occurrence _ _ Hin) as (a & t & -> & Ht).
    rewrite os_path_split_last in * by done. cbn [fst snd] in *.
    destruct (startswith t (u ".")) eqn:Hdot.
    { intros _. right. right. apply startswith_dot in Hdot as [r ->]. by exists a, r. }
    destruct (decide (a ++ [sep] = replicate (S (length a)) sep)) as [Hall|Hall].
    { intros _. left. destruct a as [|x a]; [by eexists|].
      cbn in Hall. injection Hall as -> _. by eexists. }
    pose proof (prefix_length _ _ (rstrip_prefix sep a)) as Hle.
    assert (length (rstrip sep a) < length (a ++ sep :: t)) as Hshort
      by (rewrite length_app; cbn; lia).
    case_decide as Hsame.
    { rewrite Hsame in Hshort. lia. }
    intros Hwalk. apply IH in Hwalk as [[r Hr]|Hdots]; [| |lia].
    + left. destruct Hprefix as [k Hk]. rewrite Hr in Hk. rewrite Hk. by eexists.
    + right. by eapply dot_opens_segment_prefix.
  - rewrite os_path_split_nosep by done. cbn [fst snd].
    destruct (startswith p (u ".")) eqn:Hdot.
    { intros _. right. left. by apply startswith_dot. }
    case_decide; [done|]. by rewrite walk_segments_loop.
Qed.

Lemma segments_app_sep (a b : ustring) :
  segments (a ++ sep :: b) = segments a ++ segments b.
Proof.
  induction a as [|c a IH]; cbn [app segments].
  - by rewrite bool_decide_eq_true_2.
  - rewrite IH. pose proof (segments_nonempty a).
    case_bool_decide; [done|]. by destruct (segments a).
Qed.

Lemma dot_opens_segment_segments (p : ustring) :
  dot_opens_segment p → ∃ seg, seg ∈ segments p ∧ startswith seg (u ".") = true.
Proof.
  assert (∀ b, ∃ seg, seg ∈ segments (46%N :: b) ∧ startswith seg (u ".") = true) as Hfirst.
  { intros b. cbn [segments]. rewrite bool_decide_eq_false_2 by done.
    pose proof (segments_nonempty b). destruct (segments b) as [|s0 ss]; [done|].
    exists (46%N :: s0). split; [by left|]. apply startswith_dot. by eexists. }
  intros [[r ->]|(a & b & ->)]; [done|].
  destruct (Hfirst b) as (seg & Hin & Hdot). exists seg. split; [|done].
  rewrite segments_app_sep. apply elem_of_app. by right.
Qed.

Lemma ends_with_any_inv (p : ustring) (suffixes : list ustring) :
  ends_with_any p suffixes = true →
  ∃ suffix, suffix ∈ suffixes ∧ endswith p suffix = true.
Proof.
  induction suffixes as [|s suffixes IH]; cbn; [done|].
  case_match eqn:Hends.
  - intros _. exists s. split; [by left|done].
  - intros (suffix & Hin & H')%IH. exists suffix. split; [by right|done].
Qed.

(** X8: [should_ignore_file] returns a boolean for every path: the loop comes
    to an end and its [_assert] never fails. *)
Theorem should_ignore_file_returns (p : ustring) :
  ∃ b, should_ignore_file p = Ok b.
Proof.
  unfold should_ignore_file. case_match; [by eexists|].
  apply (walk_segments_total_bounded (S (length p))). lia.
Qed.

Lemma ignored_iff (p : ustring) :
  should_ignore_file p = Ok true ↔
  (∃ suffix, suffix ∈ [u ".backup"; u ".tmp"; u ".conflict"] ∧ endswith p suffix = true) ∨
  startswith p (u "/") = true ∨
  (∃ seg, seg ∈ segments p ∧ startswith seg (u ".") = true).
Proof.
  unfold should_ignore_file. split.
  - case_match eqn:Hsuffix.
    + intros _. left. by apply ends_with_any_inv.
    + intros [Habs|Hdot]%(walk_segments_true (S (length p))); [| |lia].
      * right. left. by apply startswith_sep.
      * right. right. by apply dot_opens_segment_segments.
  - intros [(suffix & Hin & Hends)|[Habs|(seg & Hin & Hdot)]].
    + by rewrite (ends_with_any_true p suffix).
    + case_match; [done|]. apply startswith_sep in Habs as [r ->].
      apply (walk_segments_absolute (S (length r))). lia.
    + case_match; [done|]. apply (walk_segments_hidden (S (length p))); [lia|].
      eauto using segments_hidden.
Qed.

(** X9: A path is ignored only for one of three reasons: it ends with a
    reserved suffix, it is absolute, or one of its segments begins with a dot.
    Every other path, the empty one included, is not ignored. *)
Theorem should_ignore_file_iff (p : ustring) :
  should_ignore_file p = Ok true ↔
  (∃ suffix, suffix ∈ [u ".backup"; u ".tmp"; u ".conflict"] ∧ endswith p suffix = true) ∨
  startswith p (u "/") = true ∨
  (∃ seg, seg ∈ segments p ∧ startswith seg (u ".") = true).
Proof. apply ignored_iff. Qed.

(** X10: Once a path is ignored for being absolute or for a segment that begins
    with a dot, every path that extends it is ignored as well.  (A reserved
    suffix does not carry over: it counts at the end of the path only.) *)
Theorem should_ignore_file_extends (p k : ustring) :
  startswith p (u "/") = true ∨
  (∃ seg, seg ∈ segments p ∧ startswith seg (u ".") = true) →
  should_ignore_file (p ++ k) = Ok true.
Proof.
  unfold should_ignore_file. intros Hwhy. case_match; [done|].
  destruct Hwhy as [[r ->]%startswith_sep|(seg & Hin & Hdot)].
  - cbn [app]. apply (walk_segments_absolute (S (length (r ++ k)))). lia.
  - apply (walk_segments_hidden (S (length (p ++ k)))); [lia|].
    apply (dot_opens_segment_prefix p); [|by apply prefix_app_r].
    eauto using segments_hidden.
Qed.

Lemma should_ignore_file_extends_witness :
  should_ignore_file (u ".git" ++ u "/config") = Ok true.
Proof.
  apply should_ignore_file_extends. right. exists (u ".git").
  split; [by left|reflexivity].
Defined.

End ignore_more.

(** ** Paths built by the tests *)

Section test_paths.

Import magicpath strategies.
#[local] Arguments u : simpl never.

Lemma endswith_sep (p : ustring) : endswith p (u "/") = true ↔ ∃ a, p = a ++ [sep].
Proof.
  unfold endswith. rewrite bool_decide_eq_true.
  change (u "/") with [sep]. split; intros [a ->]; by exists a.
Qed.

Lemma segments_flat (s : ustring) : sep ∉ s → segments s = [s].
Proof.
  induction s as [|c s IH]; [done|].
  intros [Hc Hs]%not_elem_of_cons. cbn [segments].
  rewrite bool_decide_eq_false_2 by done. by rewrite IH.
Qed.

Lemma segment_not_open (s k : ustring) :
  path_segment s → startswith (k ++ s) (u "/") = true → ∃ r, k = sep :: r.
Proof.
  intros [Hne Hflat] [r Hr]%startswith_sep.
  destruct k as [|x k]; [|injection Hr as -> _; by eexists].
  destruct Hflat. cbn in Hr. rewrite Hr. by left.
Qed.

Lemma segment_not_closed (a s : ustring) :
  path_segment s → endswith (a ++ s) (u "/") = false.
Proof.
  intros [Hne Hflat]. apply not_true_iff_false. intros [b Hb]%endswith_sep.
  destruct Hflat. destruct (exists_last Hne) as (s' & x & ->).
  rewrite (assoc_L (++)) in Hb. apply app_inj_tail in Hb as [_ ->].
  apply elem_of_app. right. by left.
Qed.

(** Joining segments puts one separator between each two of them: the
    segments of the joined path are the segments that were joined. *)
Lemma segments_os_path_join (a s : ustring) (p : list ustring) :
  path_segment s → Forall path_segment p →
  segments (os_path_join (a ++ s) p) = segments (a ++ s) ++ p ∧
  (a ++ s) `prefix_of` os_path_join (a ++ s) p.
Proof.
  intros Hs Hp. revert a s Hs. induction Hp as [|b p Hb Hp IH]; intros a s Hs.
  { cbn. by rewrite (right_id_L [] (++)). }
  cbn [os_path_join].
  replace (startswith b (u "/")) with false; last first.
  { symmetry. apply not_true_iff_false. intros Hopen.
    destruct (segment_not_open b [] Hb Hopen) as [r [=]]. }
  rewrite (segment_not_closed a s Hs), orb_false_r.
  rewrite bool_decide_eq_false_2 by (destruct Hs as [? _]; by destruct a, s).
  rewrite (cons_middle sep (a ++ s) b), (assoc_L (++)).
  destruct (IH ((a ++ s) ++ [sep]) b Hb) as [-> Hpre]. split.
  - rewrite <-(assoc_L (++) (a ++ s)). cbn [app].
    rewrite segments_app_sep, (segments_flat b) by apply Hb.
    by rewrite <-(assoc_L (++) (segments _)).
  - etrans; [|done]. rewrite <-(assoc_L (++) (a ++ s)). by apply prefix_app_r.
Qed.

Lemma suffix_of_leaf (suffix a leaf : ustring) :
  sep ∉ suffix → suffix `suffix_of` a ++ sep :: leaf → suffix `suffix_of` leaf.
Proof.
  intros Hflat [k Hk].
  apply app_eq_inv in Hk as [(k' & -> & Hk')|(k' & -> & Hk')].
  - destruct Hflat. rewrite Hk'. apply elem_of_app. right. by left.
  - destruct k' as [|x k']; simplify_eq/=; [|by eexists].
    destruct Hflat. by left.
Qed.


Lemma leaf_decomposition (p : ustring) : p = leaf p ∨ ∃ a, p = a ++ sep :: leaf p.
Proof.
  unfold leaf. destruct (decide (sep ∈ p)) as [Hin|Hnot].
  - destruct (last_occurrence _ _ Hin) as (a & t & -> & Ht). right. exists a.
    by rewrite segments_app_sep, (segments_flat t), last_snoc.
  - left. by rewrite segments_flat.
Qed.

(** X11: A relative path that the tests build from segments splits back into
    those segments, and it is ignored exactly when one of the segments begins
    with a dot or the last one ends with a reserved suffix. *)
Theorem relative_path_ignored (xs : list ustring) (p : ustring) :
  Forall path_segment xs → relative_path xs = Some p →
  segments p = xs ∧
  (should_ignore_file p = Ok true ↔
   (∃ seg, seg ∈ xs ∧ startswith seg (u ".") = true) ∨
   (∃ suffix last_segment,
      suffix ∈ [u ".backup"; u ".tmp"; u ".conflict"] ∧
      list.last xs = Some last_segment ∧ endswith last_segment suffix = true)).
Proof.
  intros Hxs Hp. destruct xs as [|a rest]; [done|]. injection Hp as <-.
  destruct (Forall_cons_1 _ _ _ Hxs) as [Ha Hrest].
  destruct (segments_os_path_join [] a rest Ha Hrest) as [Hsegs Hpre].
  cbn [app] in Hsegs, Hpre. rewrite (segments_flat a) in Hsegs by apply Ha.
  cbn [app] in Hsegs. split; [done|]. set (p := os_path_join a rest) in *.
  assert (list.last (a :: rest) = Some (leaf p)) as Hleaf.
  { unfold leaf. rewrite Hsegs. by destruct (list.last (a :: rest)) eqn:E;
      [|apply last_None in E]. }
  rewrite ignored_iff. split.
  - intros [(suffix & Hin & Hends)|[Habs|(seg & Hin & Hdot)]].
    + right. exists suffix, (leaf p). split_and!; [done|done|].
      unfold endswith in *. apply bool_decide_eq_true in Hends.
      apply bool_decide_eq_true.
      destruct (leaf_decomposition p) as [<-|[a' Ha']]; [done|].
      rewrite Ha' in Hends. apply (suffix_of_leaf _ _ _) in Hends; [done|].
      apply (bool_decide_unpack _).
      repeat (apply elem_of_cons in Hin as [->|Hin]; [by vm_compute|]).
      by apply elem_of_nil in Hin.
    + exfalso. apply startswith_sep in Habs as [r Hr].
      destruct Hpre as [k Hk]. rewrite Hk in Hr. destruct Ha as [Hne Hflat].
      destruct a as [|x a]; [done|]. injection Hr as -> _.
      destruct Hflat. by left.
    + left. exists seg. by rewrite <-Hsegs.
  - intros [(seg & Hin & Hdot)|(suffix & l & Hin & Hlast & Hends)].
    + right. right. exists seg. by rewrite Hsegs.
    + left. exists suffix. split; [done|].
      rewrite Hleaf in Hlast. injection Hlast as <-.
      unfold endswith in *. apply bool_decide_eq_true in Hends.
      apply bool_decide_eq_true. etrans; [done|apply leaf_suffix].
Qed.

Lemma relative_path_ignored_witness :
  segments (u "docs/notes.tmp") = [u "docs"; u "notes.tmp"] ∧
  (should_ignore_file (u "docs/notes.tmp") = Ok true ↔
   (∃ seg, seg ∈ [u "docs"; u "notes.tmp"] ∧ startswith seg (u ".") = true) ∨
   (∃ suffix last_segment,
      suffix ∈ [u ".backup"; u ".tmp"; u ".conflict"] ∧
      list.last [u "docs"; u "notes.tmp"] = Some last_segment ∧
      endswith last_segment suffix = true)).
Proof.
  apply (relative_path_ignored [u "docs"; u "notes.tmp"] (u "docs/notes.tmp")).
  - repeat constructor; try done; apply (bool_decide_unpack _); by vm_compute.
  - reflexivity.
Defined.

End test_paths.

(** ** More on the Tahoe-LAFS client *)

Section tahoe_more.

Import tahoe_client.

Lemma append_String (c : Ascii.ascii) (s t : string) :
  String c s +:+ t = String c (s +:+ t).
Proof. reflexivity. Qed.

Lemma lstrip_spec (s : string) :
  ∃ l, s = l +:+ lstrip s ∧ blank l = true ∧
       ∀ c s', lstrip s = String c s' → Ascii.is_space c = false.
Proof.
  induction s as [|c s (l & Hl & Hblank & Hhead)]; cbn [lstrip].
  { by exists "". }
  destruct (Ascii.is_space c) eqn:Hc.
  - exists (String c l). rewrite append_String, <-Hl. cbn [blank].
    by rewrite Hc, Hblank.
  - exists "". split_and!; [done..|]. by intros ? ? [= <- <-].
Qed.

Lemma rstrip_space_spec (s : string) :
  ∃ r, s = rstrip_space s +:+ r ∧ blank r = true ∧
       ∀ s' c, rstrip_space s = s' +:+ String c "" → Ascii.is_space c = false.
Proof.
  induction s as [|c s (r & Hr & Hblank & Hlast)]; cbn [rstrip_space].
  { exists "". split_and!; [done..|]. by intros [|??] ?. }
  destruct (rstrip_space s) as [|d stripped] eqn:Hs.
  - destruct (Ascii.is_space c) eqn:Hc.
    + exists (String c r). cbn [blank]. rewrite Hc, Hblank.
      split_and!; [by rewrite Hr|done|]. by intros [|??] ?.
    + exists r. rewrite append_String, <-Hr. split_and!; [done..|].
      intros [|? [|??]] c'; rewrite ?append_String; intros [=]; by subst.
  - exists r. rewrite append_String, <-Hr. split_and!; [done..|].
    intros [|c0 s'] c'; rewrite ?append_String; intros [= ? Heq]; subst.
    by apply (Hlast s' c').
Qed.

Lemma rstrip_space_head (s : string) (c : Ascii.ascii) (s' : string) :
  rstrip_space s = String c s' → ∃ s'', s = String c s''.
Proof.
  destruct s as [|c0 s0]; cbn; [done|].
  destruct (rstrip_space s0); [case_match|]; intros [= <- _]; by eexists.
Qed.

(** [strip] takes white space, and nothing else, off both ends. *)
Lemma strip_spec (s : string) :
  ∃ l r, s = l +:+ strip s +:+ r ∧ blank l = true ∧ blank r = true ∧
         (∀ c s', strip s = String c s' → Ascii.is_space c = false) ∧
         (∀ s' c, strip s = s' +:+ String c "" → Ascii.is_space c = false).
Proof.
  unfold strip.
  destruct (lstrip_spec s) as (l & Hl & Hbl & Hhead).
  destruct (rstrip_space_spec (lstrip s)) as (r & Hr & Hbr & Hlast).
  exists l, r. split_and!; [|done|done| |done].
  - by rewrite <-Hr.
  - intros c s' [s'' Hs'']%rstrip_space_head. by eapply Hhead.
Qed.


(** X12: A capability returned by [create_immutable] or
    [create_immutable_directory] is the body of the response without the
    white space around it: only white space is taken off, and the capability
    neither begins nor ends with any. *)
Theorem created_capability_stripped (self : TahoeClient) (producer : payload)
    (directory_data : json) (w : world) (op : M string) (req : request) (cap : string) :
  In (op, req)
     [(create_immutable self producer,
       Request "PUT" (child (url self) "uri") (Some producer));
      (create_immutable_directory self directory_data,
       Request "POST" (replace (url self) ["uri"] [("t", "mkdir-immutable")])
               (Some (Dumps directory_data)))] →
  (op w).1 = Ok cap →
  ∃ l r, body_of (respond (http_client self) (sent w) req) = l +:+ cap +:+ r ∧
         blank l = true ∧ blank r = true ∧
         (∀ c s', cap = String c s' → Ascii.is_space c = false) ∧
         (∀ s' c, cap = s' +:+ String c "" → Ascii.is_space c = false).
Proof.
  intros Hop Hcap. cbn in Hop.
  assert (cap = strip (body_of (respond (http_client self) (sent w) req))) as ->.
  { destruct Hop as [[= <- <-]|[[= <- <-]|[]]];
      [rewrite create_immutable_run in Hcap
      |rewrite create_immutable_directory_run in Hcap];
      cbn in Hcap; destruct (failure _); try done;
      case_bool_decide; by simplify_eq. }
  apply strip_spec.
Qed.

Lemma created_capability_stripped_witness :
  ∃ l r, body_of (Response CREATED [" URI:CHK:aaaa"; " "] None) = l +:+ "URI:CHK:aaaa" +:+ r ∧
         blank l = true ∧ blank r = true ∧
         (∀ c s', "URI:CHK:aaaa" = String c s' → Ascii.is_space c = false) ∧
         (∀ s' c, "URI:CHK:aaaa" = s' +:+ String c "" → Ascii.is_space c = false).
Proof.
  refine (created_capability_stripped
            (create_tahoe_client (from_text "http://127.0.0.1:3456")
               (always (Response CREATED [" URI:CHK:aaaa"; " "] None)))
            (Bytes "foo") (JDict ∅) fresh_world
            (create_immutable
               (create_tahoe_client (from_text "http://127.0.0.1:3456")
                  (always (Response CREATED [" URI:CHK:aaaa"; " "] None)))
               (Bytes "foo"))
            _ "URI:CHK:aaaa" _ _).
  - left. reflexivity.
  - reflexivity.
Defined.

(** X13: Every operation of the client issues exactly one request, whatever the
    response turns out to be, and leaves the files and the clock alone; the
    four operations that return a body write to no file-like object. *)
Theorem one_request_each (self : TahoeClient) (producer : payload)
    (directory_data : json) (cap : string) (filelike : nat) (w : world) :
  (create_immutable self producer w).2 =
    after_request w (Request "PUT" (child (url self) "uri") (Some producer)) ∧
  (create_immutable_directory self directory_data w).2 =
    after_request w (Request "POST" (replace (url self) ["uri"] [("t", "mkdir-immutable")])
                             (Some (Dumps directory_data))) ∧
  (create_mutable_directory self w).2 =
    after_request w (Request "POST" (replace (url self) ["uri"] [("t", "mkdir")]) None) ∧
  (download_capability self cap w).2 =
    after_request w (Request "GET" (replace (url self) ["uri"] [("uri", cap)]) None) ∧
  let after := (stream_capability self cap filelike w).2 in
  sent after = sent w ++ [Request "GET" (replace (url self) ["uri"] [("uri", cap)]) None] ∧
  files after = files w ∧ clock after = clock w.
Proof.
  rewrite create_immutable_run, create_immutable_directory_run,
    create_mutable_directory_run, download_capability_run, stream_capability_run.
  split_and!; try done; cbn zeta; case_bool_decide; try done;
    unfold collect, mbind, M_bind;
    edestruct collect_chunks_write as [written' ->]; by destruct (failure _).
Qed.

(** X14: When the body of the response does not arrive whole, the four
    operations that read it raise the transport's error, whatever the status
    was: an unacceptable status is reported only once the body is there. *)
Theorem body_failure_first (self : TahoeClient) (producer : payload)
    (directory_data : json) (cap : string) (w : world) (op : M string) (req : request)
    (reason : string) :
  In (op, req)
     [(create_immutable self producer,
       Request "PUT" (child (url self) "uri") (Some producer));
      (create_immutable_directory self directory_data,
       Request "POST" (replace (url self) ["uri"] [("t", "mkdir-immutable")])
               (Some (Dumps directory_data)));
      (create_mutable_directory self,
       Request "POST" (replace (url self) ["uri"] [("t", "mkdir")]) None);
      (download_capability self cap,
       Request "GET" (replace (url self) ["uri"] [("uri", cap)]) None)] →
  failure (respond (http_client self) (sent w) req) = Some reason →
  (op w).1 = Raise (ResponseFailed reason).
Proof.
  intros Hop Hfail. cbn in Hop.
  destruct Hop as [[= <- <-]|[[= <- <-]|[[= <- <-]|[[= <- <-]|[]]]]];
    [rewrite create_immutable_run
    |rewrite create_immutable_directory_run
    |rewrite create_mutable_directory_run
    |rewrite download_capability_run];
    cbn; cbn in Hfail; by rewrite Hfail.
Qed.

Lemma body_failure_first_witness :
  (download_capability
     (create_tahoe_client (from_text "http://127.0.0.1:3456")
        (always (Response 404 ["No such"] (Some "connection lost"))))
     "URI:CHK:aaaa" fresh_world).1 = Raise (ResponseFailed "connection lost").
Proof.
  refine (body_failure_first
            (create_tahoe_client (from_text "http://127.0.0.1:3456")
               (always (Response 404 ["No such"] (Some "connection lost"))))
            (Bytes "foo") (JDict ∅) "URI:CHK:aaaa" fresh_world _ _ "connection lost" _ _).
  - right. right. right. left. reflexivity.
  - reflexivity.
Defined.

(** X15: [create_mutable_directory] returns the body of the response, as it is,
    exactly when the status is 200 or 201, and raises [TahoeAPIError] with the
    status and the body otherwise. *)
Theorem create_mutable_directory_statuses (self : TahoeClient) (w : world) :
  let res := respond (http_client self) (sent w)
               (Request "POST" (replace (url self) ["uri"] [("t", "mkdir")]) None) in
  failure res = None →
  (code res = OK ∨ code res = CREATED →
   (create_mutable_directory self w).1 = Ok (body_of res)) ∧
  (¬ (code res = OK ∨ code res = CREATED) →
   (create_mutable_directory self w).1 = Raise (TahoeAPIError (code res) (Some (body_of res)))).
Proof.
  cbn zeta. intros Hfail. rewrite create_mutable_directory_run. cbn. rewrite Hfail.
  split; intros Hcode.
  - by rewrite bool_decide_eq_true_2.
  - by rewrite bool_decide_eq_false_2.
Qed.

Lemma create_mutable_directory_statuses_witness :
  (create_mutable_directory
     (create_tahoe_client (from_text "http://127.0.0.1:3456") (answering OK "URI:DIR2:cccc"))
     fresh_world).1
  = Ok (body_of (Response OK ["URI:DIR2:cccc"; String (Ascii.ascii_of_nat 10) EmptyString] None)).
Proof.
  refine (proj1 (create_mutable_directory_statuses
                   (create_tahoe_client (from_text "http://127.0.0.1:3456")
                      (answering OK "URI:DIR2:cccc"))
                   fresh_world _) _).
  - reflexivity.
  - left. reflexivity.
Defined.

(** X16: [download_capability] returns the body of the response exactly when the
    status is 200; 201 too is an error here. *)
Theorem download_capability_statuses (self : TahoeClient) (cap : string) (w : world) :
  let res := respond (http_client self) (sent w)
               (Request "GET" (replace (url self) ["uri"] [("uri", cap)]) None) in
  failure res = None →
  (code res = OK → (download_capability self cap w).1 = Ok (body_of res)) ∧
  (code res ≠ OK →
   (download_capability self cap w).1 = Raise (TahoeAPIError (code res) (Some (body_of res)))).
Proof.
  cbn zeta. intros Hfail. rewrite download_capability_run. cbn. rewrite Hfail.
  split; intros Hcode.
  - by rewrite bool_decide_eq_true_2.
  - by rewrite bool_decide_eq_false_2.
Qed.

Lemma download_capability_statuses_witness :
  (download_capability
     (create_tahoe_client (from_text "http://127.0.0.1:3456")
        (always (Response CREATED ["foo"] None)))
     "URI:CHK:aaaa" fresh_world).1 = Raise (TahoeAPIError CREATED (Some "foo")).
Proof.
  refine (proj2 (download_capability_statuses
                   (create_tahoe_client (from_text "http://127.0.0.1:3456")
                      (always (Response CREATED ["foo"] None)))
                   "URI:CHK:aaaa" fresh_world _) _).
  - reflexivity.
  - by vm_compute.
Defined.


Lemma collect_chunks_written (cs : list string) (filelike : nat) (w : world) :
  ∃ written',
    collect_chunks cs (write filelike) w = (Ok (), World (sent w) written' (files w) (clock w)) ∧
    default [] (written' !! filelike) = default [] (written w !! filelike) ++ cs ∧
    ∀ other, other ≠ filelike → written' !! other = written w !! other.
Proof.
  revert w. induction cs as [|c cs IH]; intros w; cbn [collect_chunks].
  - exists (written w). split_and!; [by destruct w|by rewrite (right_id_L [] (++))|done].
  - unfold mbind, M_bind, write at 1.
    match goal with |- context [collect_chunks cs _ ?w1] =>
      destruct (IH w1) as (written' & -> & Hsink & Hothers) end.
    cbn [sent written files clock] in *. exists written'. split_and!; [done| |].
    + rewrite Hsink, lookup_insert_eq. cbn [default from_option id].
      by rewrite <-(assoc_L (++)).
    + intros other Hother. rewrite Hothers by done. by rewrite lookup_insert_ne.
Qed.

(** X17: On status 200 [stream_capability] appends the chunks of the body, in
    the order of arrival, to what the sink held and touches no other
    file-like object.  It returns [None] when the body arrived whole; when
    the transfer broke it raises, with the chunks that did arrive written. *)
Theorem stream_capability_writes (self : TahoeClient) (cap : string)
    (filelike : nat) (w : world) :
  let res := respond (http_client self) (sent w)
               (Request "GET" (replace (url self) ["uri"] [("uri", cap)]) None) in
  let out := stream_capability self cap filelike w in
  code res = OK →
  out.1 = match failure res with
          | None => Ok ()
          | Some reason => Raise (ResponseFailed reason)
          end ∧
  default [] (written out.2 !! filelike) = default [] (written w !! filelike) ++ chunks res ∧
  ∀ other, other ≠ filelike → written out.2 !! other = written w !! other.
Proof.
  cbn zeta. intros Hcode. rewrite stream_capability_run. cbn zeta.
  rewrite bool_decide_eq_true_2 by done. unfold collect, mbind, M_bind.
  match goal with |- context [collect_chunks ?cs _ ?w1] =>
    destruct (collect_chunks_written cs filelike w1) as (written' & -> & Hsink & Hothers) end.
  by destruct (failure _).
Qed.

Lemma stream_capability_writes_witness :
  default [] (written (stream_capability
                         (create_tahoe_client (from_text "http://127.0.0.1:3456")
                            (always (Response OK ["fo"; "o"] (Some "connection lost"))))
                         "URI:CHK:aaaa" 3
                         (World [] {[ 3 := ["earlier"] ]} ∅ sample_time)).2 !! 3)
  = ["earlier"; "fo"; "o"].
Proof.
  refine (proj1 (proj2 (stream_capability_writes
                          (create_tahoe_client (from_text "http://127.0.0.1:3456")
                             (always (Response OK ["fo"; "o"] (Some "connection lost"))))
                          "URI:CHK:aaaa" 3 (World [] {[ 3 := ["earlier"] ]} ∅ sample_time) _))).
  reflexivity.
Defined.

(** X18: Downloading and streaming agree: when the response is a whole body with
    status 200, what [stream_capability] writes to an empty sink, put
    together, is what [download_capability] returns. *)
Theorem download_is_stream (self : TahoeClient) (cap : string) (filelike : nat) (w : world) :
  let res := respond (http_client self) (sent w)
               (Request "GET" (replace (url self) ["uri"] [("uri", cap)]) None) in
  code res = OK → failure res = None → written w !! filelike = None →
  (download_capability self cap w).1 =
  Ok (String.concat "" (default [] (written (stream_capability self cap filelike w).2 !! filelike))).
Proof.
  cbn zeta. intros Hcode Hfail Hempty.
  rewrite download_capability_run, stream_capability_run. cbn zeta.
  rewrite Hfail, !bool_decide_eq_true_2 by done. unfold collect, mbind, M_bind.
  match goal with |- context [collect_chunks ?cs _ ?w1] =>
    destruct (collect_chunks_written cs filelike w1) as (written' & -> & Hsink & Hothers) end.
  rewrite Hfail. unfold after_request in *. cbn in Hsink |- *.
  by rewrite Hsink, Hempty.
Qed.

Lemma download_is_stream_witness :
  (download_capability
     (create_tahoe_client (from_text "http://127.0.0.1:3456")
        (always (Response OK ["fo"; "o"] None)))
     "URI:CHK:aaaa" fresh_world).1 = Ok "foo".
Proof.
  refine (download_is_stream
            (create_tahoe_client (from_text "http://127.0.0.1:3456")
               (always (Response OK ["fo"; "o"] None)))
            "URI:CHK:aaaa" 3 fresh_world _ _ _); reflexivity.
Defined.

End tahoe_more.

(** ** More on snapshot creation *)

Section snapshots_more.

Import snapshot.

Lemma tahoe_create_snapshot_dir_posts (bad_response : URL → response → M string)
    (nodeurl content : string) (parents : list string) (timestamp : number)
    (treq : HTTPClient) (w : world) :
  tahoe_create_snapshot_dir bad_response nodeurl content parents timestamp treq w =
  let url := add (child (from_text nodeurl) "uri") "t" "mkdir-immutable" in
  let post := Request "POST" url (Some (Dumps (JDict (directory_of content parents timestamp)))) in
  let res := respond treq (sent w) post in
  if decide (code res = OK) then
    (match failure res with
     | Some reason => Raise (ResponseFailed reason)
     | None => Ok (body_of res)
     end, after_request w post)
  else bad_response url res (after_request w post).
Proof. by rewrite tahoe_create_snapshot_dir_run. Qed.

(** X19: Without the file there is no snapshot and no traffic: [snapshot_create]
    raises the [IOError] of the read and sends nothing to the node. *)
Theorem snapshot_create_missing_file (get_node_url : string → string)
    (bad_response : URL → response → M string)
    (to_text : URL → string) (repr_response : response → string)
    (reactor_client : HTTPClient)
    (node_directory filepath : string) (parents : list string) (w : world) :
  files w !! filepath = None →
  snapshot_create get_node_url bad_response to_text repr_response reactor_client
    node_directory filepath parents w
  = (Raise (IOError filepath), w).
Proof.
  intros Hfile. rewrite snapshot_create_run, tahoe_put_immutable_run. by rewrite Hfile.
Qed.

Lemma snapshot_create_missing_file_witness :
  snapshot_create (λ _, "http://127.0.0.1:3456") (λ _ _, raise (Exception "bad response"))
    base (λ _, "<Response>")
    sample_node "/home/alice/node" "/tmp/bar" [] fresh_world
  = (Raise (IOError "/tmp/bar"), fresh_world).
Proof. apply snapshot_create_missing_file. reflexivity. Defined.

(** X20: When the node refuses the content (a status other than 200 and 201),
    [snapshot_create] raises and stops there: the upload is the only request
    it has made, and no directory is posted. *)
Theorem snapshot_create_upload_refused (get_node_url : string → string)
    (bad_response : URL → response → M string)
    (to_text : URL → string) (repr_response : response → string)
    (reactor_client : HTTPClient)
    (node_directory filepath data : string) (parents : list string) (w : world) :
  let put := Request "PUT" (add (child (from_text (get_node_url node_directory)) "uri")
                                "format" "CHK")
                     (Some (Bytes data)) in
  files w !! filepath = Some data →
  ¬ (code (respond reactor_client (sent w) put) = OK ∨
     code (respond reactor_client (sent w) put) = CREATED) →
  ∃ msg,
    snapshot_create get_node_url bad_response to_text repr_response reactor_client
      node_directory filepath parents w
    = (Raise (Exception msg), after_request w put).
Proof.
  cbn zeta. intros Hfile Hcode.
  rewrite snapshot_create_run, tahoe_put_immutable_run, Hfile. cbn zeta.
  rewrite bool_decide_eq_false_2 by done. by eexists.
Qed.

Lemma snapshot_create_upload_refused_witness :
  ∃ msg,
    snapshot_create (λ _, "http://127.0.0.1:3456") (λ _ _, raise (Exception "bad response"))
      base (λ _, "<Response>")
      (always (Response 507 ["Insufficient Storage"] None))
      "/home/alice/node" "/tmp/foo" [] fresh_world
    = (Raise (Exception msg),
       after_request fresh_world
         (Request "PUT" (add (child (from_text "http://127.0.0.1:3456") "uri") "format" "CHK")
                  (Some (Bytes "foo")))).
Proof.
  refine (snapshot_create_upload_refused (λ _, "http://127.0.0.1:3456")
            (λ _ _, raise (Exception "bad response")) base (λ _, "<Response>")
            (always (Response 507 ["Insufficient Storage"] None))
            "/home/alice/node" "/tmp/foo" "foo" [] fresh_world _ _).
  - reflexivity.
  - by vm_compute; intros [|].
Defined.

(** X21: A successful run, end to end: the content goes up first, the directory
    is posted next, to the same node, with the body of the first response as
    its [content] and [str] of the float that the clock gave as its
    [timestamp]; the body of the second response is returned, and nothing else
    changes. *)
Theorem snapshot_create_succeeds (get_node_url : string → string)
    (bad_response : URL → response → M string)
    (to_text : URL → string) (repr_response : response → string)
    (reactor_client : HTTPClient)
    (node_directory filepath data : string) (parents : list string) (w : world) :
  let nodeurl := get_node_url node_directory in
  let put := Request "PUT" (add (child (from_text nodeurl) "uri") "format" "CHK")
                     (Some (Bytes data)) in
  let stored := respond reactor_client (sent w) put in
  let post := Request "POST" (add (child (from_text nodeurl) "uri") "t" "mkdir-immutable")
                      (Some (Dumps (JDict (directory_of (body_of stored) parents
                                                         (Float (clock w)))))) in
  let made := respond reactor_client (sent w ++ [put]) post in
  files w !! filepath = Some data →
  code stored = OK ∨ code stored = CREATED → failure stored = None →
  code made = OK → failure made = None →
  snapshot_create get_node_url bad_response to_text repr_response reactor_client
    node_directory filepath parents w
  = (Ok (body_of made), World (sent w ++ [put; post]) (written w) (files w) (clock w)).
Proof.
  cbn zeta. intros Hfile Hstored Hwhole Hmade Hwhole'.
  rewrite snapshot_create_run, tahoe_put_immutable_run, Hfile. cbn zeta.
  rewrite bool_decide_eq_true_2, Hwhole by done.
  rewrite tahoe_create_snapshot_dir_posts. cbn zeta.
  unfold after_request. cbn [sent written files clock].
  rewrite decide_True, Hwhole' by done.
  by rewrite <-(assoc_L (++)).
Qed.

Lemma snapshot_create_succeeds_witness :
  (snapshot_create (λ _, "http://127.0.0.1:3456") (λ _ _, raise (Exception "bad response"))
     base (λ _, "<Response>")
     sample_node "/home/alice/node" "/tmp/foo" ["URI:DIR2-CHK:pppp"] fresh_world).1
  = Ok "URI:DIR2-CHK:bbbb".
Proof.
  refine (f_equal fst (snapshot_create_succeeds (λ _, "http://127.0.0.1:3456")
            (λ _ _, raise (Exception "bad response")) base (λ _, "<Response>") sample_node
            "/home/alice/node" "/tmp/foo" "foo" ["URI:DIR2-CHK:pppp"] fresh_world _ _ _ _ _));
    try reflexivity.
  right. reflexivity.
Defined.


Lemma filenode_inj (a b : string) : filenode a = filenode b → a = b.
Proof.
  intros Heq.
  apply (f_equal (λ j, match j with
                       | JList [_; JDict fields] => fields !! "ro_uri"
                       | _ => None
                       end)) in Heq.
  cbn in Heq. by injection Heq.
Qed.

Lemma JString_fmap_inj (xs ys : list string) : JString <$> xs = JString <$> ys → xs = ys.
Proof.
  revert ys. induction xs as [|x xs IH]; intros [|y ys] Heq; try done.
  cbn in Heq. injection Heq as -> Heq. f_equal. by apply IH.
Qed.

Lemma directory_of_lookup (content : string) (parents : list string) (timestamp : number) :
  directory_of content parents timestamp !! "content" = Some (filenode content) ∧
  directory_of content parents timestamp !! "timestamp" = Some (filenode (str timestamp)) ∧
  directory_of content parents timestamp !! "parents" =
    (if decide (parents = []) then None else Some (JList (JString <$> parents))).
Proof. unfold directory_of. by case_decide. Qed.

Lemma directory_of_inj (content content' : string) (parents parents' : list string)
    (timestamp timestamp' : number) :
  directory_of content parents timestamp = directory_of content' parents' timestamp' →
  content = content' ∧ parents = parents' ∧ str timestamp = str timestamp'.
Proof.
  intros Heq.
  destruct (directory_of_lookup content parents timestamp) as (Hc & Ht & Hp).
  destruct (directory_of_lookup content' parents' timestamp') as (Hc' & Ht' & Hp').
  rewrite Heq in Hc, Ht, Hp. clear Heq.
  rewrite Hc' in Hc. rewrite Ht' in Ht. rewrite Hp' in Hp. clear Hc' Ht' Hp'.
  split_and!.
  - symmetry. by apply filenode_inj, (inj Some).
  - repeat case_decide; subst; try done.
    symmetry. apply JString_fmap_inj. apply (inj Some) in Hp. by injection Hp.
  - symmetry. by apply filenode_inj, (inj Some).
Qed.

Lemma directory_of_str (content : string) (parents : list string)
    (timestamp timestamp' : number) :
  str timestamp = str timestamp' →
  directory_of content parents timestamp = directory_of content parents timestamp'.
Proof. unfold directory_of. by intros ->. Qed.

(** X22: The directory that is posted tells the snapshot as far as [str] tells
    the timestamp: two calls post the same request exactly when they were
    given the same content capability, the same parents in the same order, and
    timestamps that [str] renders alike.  Floats that round to the same
    twelve significant digits are rendered alike: readings of today's clock
    that lie a few milliseconds apart can give the same [timestamp] field. *)
Theorem snapshot_dir_determined (bad_response : URL → response → M string)
    (nodeurl content content' : string) (parents parents' : list string)
    (timestamp timestamp' : number) (res : response) (w : world) :
  code res = OK →
  sent (tahoe_create_snapshot_dir bad_response nodeurl content parents timestamp
          (always res) w).2 =
  sent (tahoe_create_snapshot_dir bad_response nodeurl content' parents' timestamp'
          (always res) w).2
  ↔ content = content' ∧ parents = parents' ∧ str timestamp = str timestamp'.
Proof.
  intros Hcode. rewrite !tahoe_create_snapshot_dir_posts. cbn zeta. cbn [respond always].
  rewrite !decide_True by done. cbn [snd after_request sent]. split.
  - intros [_ [= Heq]]%app_inj_tail. by apply directory_of_inj.
  - intros (-> & -> & Hstr). by rewrite (directory_of_str _ _ _ _ Hstr).
Qed.

Lemma snapshot_dir_determined_witness :
  S754_finite false 6660154098253210 (-22) ≠ S754_finite false 6660154098261598 (-22) ∧
  sent (tahoe_create_snapshot_dir (λ _ _, raise (Exception "bad response"))
          "http://127.0.0.1:3456" "URI:CHK:aaaa" ["URI:DIR2-CHK:pppp"]
          (Float (S754_finite false 6660154098253210 (-22)))
          (always (Response OK ["URI:DIR2-CHK:bbbb"] None)) fresh_world).2 =
  sent (tahoe_create_snapshot_dir (λ _ _, raise (Exception "bad response"))
          "http://127.0.0.1:3456" "URI:CHK:aaaa" ["URI:DIR2-CHK:pppp"]
          (Float (S754_finite false 6660154098261598 (-22)))
          (always (Response OK ["URI:DIR2-CHK:bbbb"] None)) fresh_world).2.
Proof.
  split; [done|].
  refine (proj2 (snapshot_dir_determined (λ _ _, raise (Exception "bad response"))
                   "http://127.0.0.1:3456" "URI:CHK:aaaa" "URI:CHK:aaaa"
                   ["URI:DIR2-CHK:pppp"] ["URI:DIR2-CHK:pppp"]
                   (Float (S754_finite false 6660154098253210 (-22)))
                   (Float (S754_finite false 6660154098261598 (-22)))
                   (Response OK ["URI:DIR2-CHK:bbbb"] None) fresh_world _) _).
  - reflexivity.
  - split_and!; [reflexivity|reflexivity|by vm_compute].
Defined.

(** X23: The directory has the fields [content], [version] and [timestamp],
    [parents] when there are parents, and no other: nothing about an author
    is sent, though the docstring lists one. *)
Theorem snapshot_dir_keys (bad_response : URL → response → M string)
    (nodeurl content : string) (parents : list string) (timestamp : number)
    (treq : HTTPClient) (w : world) :
  ∃ body : gmap string json,
    dom body = ({[ "content"; "version"; "timestamp" ]} : gset string) ∪
               (if decide (parents = []) then ∅ else {[ "parents" ]}) ∧
    let url := add (child (from_text nodeurl) "uri") "t" "mkdir-immutable" in
    let post := Request "POST" url (Some (Dumps (JDict body))) in
    let res := respond treq (sent w) post in
    tahoe_create_snapshot_dir bad_response nodeurl content parents timestamp treq w =
    if decide (code res = OK) then
      (match failure res with
       | Some reason => Raise (ResponseFailed reason)
       | None => Ok (body_of res)
       end, after_request w post)
    else bad_response url res (after_request w post).
Proof.
  exists (directory_of content parents timestamp).
  split; [|apply tahoe_create_snapshot_dir_posts].
  unfold directory_of. case_decide.
  - rewrite !dom_insert_L, dom_singleton_L. by rewrite (right_id_L ∅ (∪)), !(assoc_L (∪)).
  - rewrite !dom_insert_L, dom_singleton_L.
    rewrite (comm_L (∪) _ {["parents"]}). by rewrite !(assoc_L (∪)).
Qed.

End snapshots_more.
